(** * Sudoku solver utilities: a shallow embedding and its properties

    The embedded program is the module of solver utilities (isSafe,
    solveSudoku, solveSudokuAnimated, generatePuzzle, fillBox,
    isValidSudoku, getDifficulty), the handlers of the page that calls
    them (module [Page]) and the input handling of the grid component
    (module [SudokuGrid]).

    Conventions of the embedding.
    - A board ([number[][]]) is a list of rows of integers; [size] is the
      number of rows, as in the source ([board.length]).
    - Reading [board[row][col]] gives [Some v], or [None] where JavaScript
      gives [undefined] (a column past the end of the row).  A comparison
      [=== num] with [undefined] is false.  Reading a cell of an absent row
      raises a TypeError in JavaScript; in the source this needs
      [row >= board.length], which none of the loops below reaches on a
      board whose side is a perfect square.
    - [Math.sqrt(size)] is [Nat.sqrt size]; the two agree exactly when
      [size] is a perfect square, the only sizes the program is used with.
    - In-place updates are explicit state passing: every function that
      writes to the board returns the board it leaves behind.
    - [Math.random()] is a draw from a list of rationals of [[0, 1)],
      each the value of the double that the call returns; a computation
      that asks for more draws than the list holds has no result on that
      prefix of the random stream.
    - The number of cells that generatePuzzle keeps,
      [Math.floor(size * size * (0.3 + Math.random() * 0.2))], is computed
      as the source computes it, in binary64: every literal and every
      product or sum is rounded to the nearest double, ties to even
      ([round64]).  The exponent range is not modelled; the values of
      this expression stay far inside it, but for the product of 0.2 with
      a draw below 2^-1020, which is lost in the sum with 0.3 either way. *)

From Stdlib Require Import String ZArith QArith Qround Qpower List Lia Lqa Permutation.
From stdpp Require Import base numbers list relations.

Open Scope nat_scope.

(** ** Boards *)

Abbreviation board := (list (list Z)).

(** [board[row][col]] *)
Definition cell (b : board) (row col : nat) : option Z :=
  match b !! row with
  | Some r => r !! col
  | None => None
  end.

(** [board[row][col] === num] *)
Definition cellIs (b : board) (row col : nat) (num : Z) : bool :=
  match cell b row col with
  | Some v => Z.eqb v num
  | None => false
  end.

(** [board[row][col] = num], for a cell the board has: the program
    assigns to cells it has just read, or to cells of the grid it has
    built itself.  (JavaScript would lengthen a row that is too short.) *)
Definition setCell (b : board) (row col : nat) (num : Z) : board :=
  alter (<[col := num]>) row b.

(** The positions visited by [for row < size { for col < size ... }], in
    the order of the visit. *)
Definition cells (size : nat) : list (nat * nat) :=
  list_prod (seq 0 size) (seq 0 size).

(** ** isSafe *)

Definition isSafe (b : board) (row col : nat) (num : Z) : bool :=
  let size := length b in
  let boxSize := Nat.sqrt size in
  if existsb (fun x => cellIs b row x num) (seq 0 size) then false
  else if existsb (fun x => cellIs b x col num) (seq 0 size) then false
  else
    let startRow := row - row mod boxSize in
    let startCol := col - col mod boxSize in
    if existsb (fun i =>
          existsb (fun j => cellIs b (i + startRow) (j + startCol) num)
                  (seq 0 boxSize))
         (seq 0 boxSize)
    then false
    else true.

(** ** solveSudoku *)

Record SolveResult := mkResult { solved : bool; grid : board; steps : nat }.

(** The first cell, in row-major order, with [board[row][col] === 0]. *)
Definition firstEmpty (b : board) : option (nat * nat) :=
  find (fun p => cellIs b p.1 p.2 0) (cells (length b)).

(** The state threaded through the search: the board and the counter
    [steps] of the enclosing closure. *)
Abbreviation search := (board * nat)%type.

(** The loop [for num ...] of one frame, for the candidates [nums] still
    to try; [rec] is the recursive call [solve()]. *)
Fixpoint tryNums (rec : search -> option (bool * search))
    (row col : nat) (nums : list nat) (st : search) : option (bool * search) :=
  match nums with
  | [] => Some (false, st)
  | num :: nums' =>
      if isSafe st.1 row col (Z.of_nat num) then
        match rec (setCell st.1 row col (Z.of_nat num), st.2) with
        | None => None
        | Some (true, st') => Some (true, st')
        | Some (false, st') =>
            tryNums rec row col nums' (setCell st'.1 row col 0, st'.2)
        end
      else tryNums rec row col nums' st
  end.

(** The closure [solve]; [fuel] bounds the depth of the recursion, which
    [solve_total] below shows to be at most the number of empty cells plus
    one. *)
Fixpoint solve (fuel : nat) (st : search) : option (bool * search) :=
  match fuel with
  | O => None
  | S fuel' =>
      let st1 := (st.1, S st.2) in
      match firstEmpty st1.1 with
      | Some (row, col) =>
          tryNums (solve fuel') row col (seq 1 (length st1.1)) st1
      | None => Some (true, st1)
      end
  end.

(** Number of empty cells: each frame of the search fills one. *)
Definition empties (b : board) : nat :=
  length (filter (fun p => cellIs b p.1 p.2 0 = true) (cells (length b))).

Definition solveSudoku (b : board) : option SolveResult :=
  match solve (S (empties b)) (b, 0) with
  | Some (ok, (b', n)) => Some (mkResult ok b' n)
  | None => None
  end.

(** ** solveSudokuAnimated *)

(** What the caller observes of an animated run: the calls of [onUpdate]
    with the board as it is at that moment, and the timers awaited. *)
Inductive event :=
| Update (snapshot : board)
| Sleep (ms : Q).

Abbreviation asearch := (board * nat * list event)%type.

Definition emit (e : event) (st : asearch) : asearch :=
  (st.1.1, st.1.2, st.2 ++ [e]).

Fixpoint tryNumsAnimated (delay : Q) (rec : asearch -> option (bool * asearch))
    (row col : nat) (nums : list nat) (st : asearch) : option (bool * asearch) :=
  match nums with
  | [] => Some (false, st)
  | num :: nums' =>
      if isSafe st.1.1 row col (Z.of_nat num) then
        let b1 := setCell st.1.1 row col (Z.of_nat num) in
        let st1 := emit (Sleep delay) (emit (Update b1) (b1, st.1.2, st.2)) in
        match rec st1 with
        | None => None
        | Some (true, st') => Some (true, st')
        | Some (false, st') =>
            let b2 := setCell st'.1.1 row col 0 in
            let st2 :=
              emit (Sleep (delay / 2)) (emit (Update b2) (b2, st'.1.2, st'.2)) in
            tryNumsAnimated delay rec row col nums' st2
        end
      else tryNumsAnimated delay rec row col nums' st
  end.

Fixpoint solveAnimated (delay : Q) (fuel : nat) (st : asearch)
    : option (bool * asearch) :=
  match fuel with
  | O => None
  | S fuel' =>
      let st1 := (st.1.1, S st.1.2, st.2) in
      match firstEmpty st1.1.1 with
      | Some (row, col) =>
          tryNumsAnimated delay (solveAnimated delay fuel') row col
            (seq 1 (length st1.1.1)) st1
      | None => Some (true, st1)
      end
  end.

(** The awaited result together with the observed events. *)
Definition solveSudokuAnimated (b : board) (delay : Q)
    : option (SolveResult * list event) :=
  match solveAnimated delay (S (empties b)) (b, 0, []) with
  | Some (ok, (b', n, tr)) => Some (mkResult ok b' n, tr)
  | None => None
  end.

(** The result of an animated frame with the observed events left out. *)
Definition erase (r : option (bool * asearch)) : option (bool * search) :=
  match r with
  | Some (ok, (b, n, _)) => Some (ok, (b, n))
  | None => None
  end.

(** ** isValidSudoku *)

Record ValidResult := mkValid {
  valid : bool;            (* the value returned *)
  after : board;           (* the board as the call leaves it *)
  checked : list (nat * nat) (* the cells on which isSafe was called *)
}.

Fixpoint validScan (ps : list (nat * nat)) (b : board) (seen : list (nat * nat))
    : ValidResult :=
  match ps with
  | [] => mkValid true b seen
  | (row, col) :: ps' =>
      match cell b row col with
      | Some num =>
          if Z.eqb num 0 then validScan ps' b seen
          else
            let b1 := setCell b row col 0 in
            if negb (isSafe b1 row col num)
            then mkValid false (setCell b1 row col num) (seen ++ [(row, col)])
            else validScan ps' (setCell b1 row col num) (seen ++ [(row, col)])
      | None => validScan ps' b seen (* no such cell on an N x N board *)
      end
  end.

Definition isValidSudoku (b : board) : ValidResult :=
  validScan (cells (length b)) b [].

(** The cells the scan looks into: those that hold a value other than 0. *)
Definition filledAt (b : board) (p : nat * nat) : bool :=
  match cell b p.1 p.2 with
  | Some num => negb (Z.eqb num 0)
  | None => false
  end.

(** The test the scan makes on a filled cell:
    [!isSafe(board, row, col, num)] on the board with the cell cleared. *)
Definition conflicting (b : board) (p : nat * nat) : bool :=
  match cell b p.1 p.2 with
  | Some num => negb (isSafe (setCell b p.1 p.2 0) p.1 p.2 num)
  | None => false
  end.

(** The elements of a list up to the first bad one, that one included. *)
Fixpoint uptoFirst {A : Type} (bad : A -> bool) (l : list A) : list A :=
  match l with
  | [] => []
  | x :: l' => if bad x then [x] else x :: uptoFirst bad l'
  end.

(** ** The random source *)

(** A computation that draws from [Math.random()]: it consumes a prefix of
    the draws and has no result when the draws run out. *)
Definition Rand (A : Type) : Type := list Q -> option (A * list Q).

#[global] Instance rand_ret : MRet Rand := fun A x rs => Some (x, rs).

#[global] Instance rand_bind : MBind Rand := fun A B f m rs =>
  match m rs with
  | Some (x, rs') => f x rs'
  | None => None
  end.

(** [Math.random()] *)
Definition random : Rand Q := fun rs =>
  match rs with
  | u :: rs' => Some (u, rs')
  | [] => None
  end.

(** [Math.floor(u * k)] *)
Definition floorTimes (u : Q) (k : nat) : nat :=
  Z.to_nat (Qfloor (u * inject_Z (Z.of_nat k))).

(** [Math.floor(Math.random() * k)] *)
Definition randomBelow (k : nat) : Rand nat :=
  u ← random; mret (floorTimes u k).

(** A value that needs no draw, or no value at all. *)
Definition liftOption {A : Type} (o : option A) : Rand A := fun rs =>
  match o with
  | Some x => Some (x, rs)
  | None => None
  end.

(** A draw of [Math.random()] lies in [[0, 1)]. *)
Definition unitDraw (u : Q) : Prop := (0 <= u)%Q /\ (u < 1)%Q.

(** A computation hands on what is left of the draws it was given. *)
Definition consumes {A : Type} (m : Rand A) : Prop :=
  forall rs x rs', m rs = Some (x, rs') -> rs' `suffix_of` rs.

(** [unitDraw], as a test. *)
Definition unitDrawb (u : Q) : bool := Qle_bool 0 u && negb (Qle_bool 1 u).

(** More draws after those a computation needs do not change its result. *)
Definition stable {A : Type} (m : Rand A) : Prop :=
  forall rs x rs' more,
    m rs = Some (x, rs') -> m (rs ++ more) = Some (x, rs' ++ more).

(** ** fillBox *)

(** [[numbers[i], numbers[j]] = [numbers[j], numbers[i]]] *)
Definition swap (numbers : list Z) (i j : nat) : list Z :=
  match numbers !! i, numbers !! j with
  | Some x, Some y => <[j := x]> (<[i := y]> numbers)
  | _, _ => numbers
  end.

(** The loop [for (i = ...; i > 0; i--)], entered with the index [i]. *)
Fixpoint shuffle (i : nat) (numbers : list Z) : Rand (list Z) :=
  match i with
  | O => mret numbers
  | S i' => j ← randomBelow (S i); shuffle i' (swap numbers i j)
  end.

(** One assignment [grid[row + i][col + j] = numbers[numIndex++]]; the
    state is the grid and [numIndex], which stays below
    [boxSize * boxSize <= size]. *)
Definition fillCell (row col : nat) (numbers : list Z)
    (st : board * nat) (p : nat * nat) : board * nat :=
  match numbers !! st.2 with
  | Some v => (setCell st.1 (row + p.1) (col + p.2) v, S st.2)
  | None => (st.1, S st.2)
  end.

Definition fillBox (grid : board) (row col size : nat) : Rand board :=
  let boxSize := Nat.sqrt size in
  numbers ← shuffle (size - 1) (Z.of_nat <$> seq 1 size);
  mret (fold_left (fillCell row col numbers) (cells boxSize) (grid, 0)).1.

(** ** generatePuzzle *)

(** The loop [for (i = 0; i < size; i += boxSize)], entered with the index
    [i]; it runs at most [size] times, which [n] counts down. *)
Fixpoint seedDiagonal (n i size : nat) (grid : board) : Rand board :=
  match n with
  | O => mret grid
  | S n' =>
      if i <? size then
        grid' ← fillBox grid i i size;
        seedDiagonal n' (i + Nat.sqrt size) size grid'
      else mret grid
  end.

(** The grid of [generatePuzzle] when it calls the solver. *)
Definition seedPuzzle (size : nat) : Rand board :=
  seedDiagonal size 0 size (replicate size (replicate size 0%Z)).

(** The loop [do { ... } while (grid[row][col] === 0)]: two draws for each
    turn. *)
Fixpoint pickFilled (size : nat) (grid : board) (rs : list Q)
    : option (nat * nat * list Q) :=
  match rs with
  | u :: v :: rs' =>
      let row := floorTimes u size in
      let col := floorTimes v size in
      if cellIs grid row col 0 then pickFilled size grid rs'
      else Some ((row, col), rs')
  | _ => None
  end.

(** The loop [for (i = 0; i < cellsToRemove; i++)], with [n] turns left. *)
Fixpoint removeCells (n size : nat) (grid : board) : Rand board :=
  match n with
  | O => mret grid
  | S n' =>
      p ← pickFilled size grid;
      removeCells n' size (setCell grid p.1 p.2 0)
  end.

(** *** Binary64 arithmetic *)

(** The integer nearest to [y], the even one of the two when [y] lies
    halfway. *)
Definition roundNE (y : Q) : Z :=
  let f := Qfloor y in
  match Qcompare (y - inject_Z f) (1 # 2) with
  | Lt => f
  | Gt => (f + 1)%Z
  | Eq => if Z.even f then f else (f + 1)%Z
  end.

(** The exponent [e] of the last place of a double near [x > 0]: the one
    with [2^52 <= x / 2^e < 2^53]. *)
Definition ulpExp (x : Q) : Z :=
  let k := (Z.log2 (Qnum x) - Z.log2 (Z.pos (Qden x)))%Z in
  if Qle_bool (2 ^ k) x then (k - 52)%Z else (k - 53)%Z.

(** The double nearest to [x >= 0], ties to even: the result of a
    binary64 operation whose exact result is [x], and the value of a
    literal that reads [x]. *)
Definition round64 (x : Q) : Q :=
  if Qle_bool x 0 then 0%Q
  else (inject_Z (roundNE (x / 2 ^ ulpExp x)) * 2 ^ ulpExp x)%Q.

(** The literals [0.3] and [0.2]. *)
Definition d03 : Q := round64 (3 # 10).
Definition d02 : Q := round64 (2 # 10).

(** Half the distance between 1 and the next double: the relative error
    of one rounding is at most [eps]. *)
Definition eps : Q := 1 # 9007199254740992.

(** The largest double below 1. *)
Definition lastDraw : Q := 9007199254740991 # 9007199254740992.

(** [Math.floor(size * size * (0.3 + u * 0.2))] *)
Definition cellsToKeep (size : nat) (u : Q) : nat :=
  Z.to_nat (Qfloor (round64 (round64 (inject_Z (Z.of_nat (size * size)))
                             * round64 (d03 + round64 (u * d02))))).

Definition generatePuzzle (size : nat) : Rand board :=
  seeded ← seedPuzzle size;
  res ← liftOption (solveSudoku seeded);
  u ← random;
  removeCells (size * size - cellsToKeep size u) size (grid res).

(** ** Counting and shape *)

(** [board.flat().filter(cell => cell !== 0).length], as getDifficulty
    counts the filled cells. *)
Definition filledCells (b : board) : nat :=
  length (filter (fun v => v <> 0%Z) (concat b)).

(** Every row has as many cells as the board has rows. *)
Definition square (b : board) : Prop :=
  Forall (fun r => length r = length b) b.

(** Two positions constrain each other: same row, same column, or same
    box of side [bs]. *)
Definition related (bs : nat) (p q : nat * nat) : Prop :=
  p.1 = q.1 \/ p.2 = q.2 \/ (p.1 / bs = q.1 / bs /\ p.2 / bs = q.2 / bs).

(** No value other than 0 occurs twice in a row, a column or a box. *)
Definition conflictFree (b : board) : Prop :=
  forall p q v,
    cell b p.1 p.2 = Some v -> cell b q.1 q.2 = Some v ->
    v <> 0%Z -> p <> q -> ~ related (Nat.sqrt (length b)) p q.

(** The boards the seeding loop goes through, on a side of [bs * bs]:
    before the diagonal box [k] is filled, the filled cells lie in the
    diagonal boxes before it, and the filled cells of one band of boxes
    hold different values. *)
Definition diagonalFilled (bs k : nat) (g : board) : Prop :=
  (forall r c v, cell g r c = Some v -> v <> 0%Z -> r / bs = c / bs /\ r / bs < k) /\
  (forall p q v,
     cell g p.1 p.2 = Some v -> cell g q.1 q.2 = Some v -> v <> 0%Z ->
     p.1 / bs = q.1 / bs -> p = q).

(** Every cell holds 0 or a value of 1..N. *)
Definition inRange (b : board) : Prop :=
  forall r c v, cell b r c = Some v -> (0 <= v <= Z.of_nat (length b))%Z.

(** The values a board holds at the positions [ps]. *)
Definition valuesAt (b : board) (ps : list (nat * nat)) : list Z :=
  omap (fun p => cell b p.1 p.2) ps.

Definition rowCells (n row : nat) : list (nat * nat) :=
  (fun col => (row, col)) <$> seq 0 n.

Definition colCells (n col : nat) : list (nat * nat) :=
  (fun row => (row, col)) <$> seq 0 n.

Definition boxCells (bs k l : nat) : list (nat * nat) :=
  (fun p => (k * bs + p.1, l * bs + p.2)) <$> cells bs.

Definition oneToN (n : nat) : list Z := Z.of_nat <$> seq 1 n.

(** Every row, every column and every box is a permutation of 1..N,
    N = bs * bs. *)
Definition isSudoku (bs : nat) (b : board) : Prop :=
  (forall i, i < bs * bs -> valuesAt b (rowCells (bs * bs) i) ≡ₚ oneToN (bs * bs)) /\
  (forall i, i < bs * bs -> valuesAt b (colCells (bs * bs) i) ≡ₚ oneToN (bs * bs)) /\
  (forall k l, k < bs -> l < bs -> valuesAt b (boxCells bs k l) ≡ₚ oneToN (bs * bs)).

(** ** getDifficulty *)

(** [x > t] on numbers. *)
Definition above (x t : Q) : bool := negb (Qle_bool x t).

(** The quotient [filledCells / (size * size)] and the literals it is
    compared with are rationals here.  As doubles they compare the same
    way for every board that fits in memory: two different fractions with
    denominators [size * size] and 5 or 4 lie further apart than the
    rounding of a double as long as [size * size] stays below 2^50.  For
    size 0 the quotient is NaN in JavaScript, which is greater than
    nothing, as is the 0 that the division of rationals gives. *)
Definition getDifficulty (b : board) : string :=
  let size := length b in
  let filled := filledCells b in
  let percentage :=
    (inject_Z (Z.of_nat filled) / inject_Z (Z.of_nat (size * size)))%Q in
  if above percentage (6 # 10) then "Easy"
  else if above percentage (4 # 10) then "Medium"
  else if above percentage (25 # 100) then "Hard"
  else "Expert".

(** The labels, from the easiest to the hardest. *)
Definition level (label : string) : nat :=
  if String.eqb label "Easy" then 0
  else if String.eqb label "Medium" then 1
  else if String.eqb label "Hard" then 2
  else 3.

(** The cells that [b] has filled hold the same values in [c]. *)
Definition keepsFilled (b c : board) : Prop :=
  forall row col v, cell b row col = Some v -> v <> 0%Z -> cell c row col = Some v.

(** A completed sudoku of side [bs * bs]: N rows of N cells, each holding
    one of 1..N, no value twice in a row, a column or a box. *)
Definition solution (bs : nat) (c : board) : Prop :=
  length c = bs * bs /\ square c /\ conflictFree c /\ inRange c /\
  firstEmpty c = None.

(** [inRange] and [keepsFilled], as tests. *)
Definition inRangeb (b : board) : bool :=
  forallb (forallb (fun v => (0 <=? v)%Z && (v <=? Z.of_nat (length b))%Z)) b.

Definition keepsFilledb (b c : board) : bool :=
  forallb (fun p =>
             match cell b p.1 p.2 with
             | Some v => Z.eqb v 0 || cellIs c p.1 p.2 v
             | None => true
             end)
          (cells (length b)).

(** The events of a run in which [onUpdate] was called with the boards
    [steps.*1], each call followed by a timer of [steps.*2] ms. *)
Definition updates (steps : list (board * Q)) : list event :=
  steps ≫= (fun p => [Update p.1; Sleep p.2]).

(** The boards that [onUpdate] was called with, in the order of the calls. *)
Definition shown (events : list event) : list board :=
  omap (fun e => match e with Update snap => Some snap | Sleep _ => None end) events.

(** ** The grid component: handleInputChange and the disabled inputs *)

Module SudokuGrid.

(** The call [onChange(row, col, value)] that [handleInputChange] makes,
    if it makes one.  [parseInt] is the function of the JavaScript
    library; [None] stands for NaN.  (The call of [console.log] is left
    out.) *)
Definition handleInputChange (parseInt : string -> option Z) (size : nat)
    (row col : nat) (value : string) : option (nat * nat * Z) :=
  if String.eqb value "" then Some (row, col, 0%Z)
  else
    match parseInt value with
    | Some numValue =>
        if (1 <=? numValue)%Z && (numValue <=? Z.of_nat size)%Z
        then Some (row, col, numValue)
        else None
    | None => None
    end.

(** [disabled={isOriginal || isAnimating}], with
    [isOriginal = originalGrid[rowIndex][colIndex] !== 0]. *)
Definition disabled (originalGrid : board) (isAnimating : bool)
    (rowIndex colIndex : nat) : bool :=
  negb (cellIs originalGrid rowIndex colIndex 0) || isAnimating.

(** The two tests of [getCellClasses] that choose the thick borders, with
    [boxSize = Math.sqrt(size)]. *)
Definition isRightBorder (size col : nat) : bool :=
  ((col + 1) mod Nat.sqrt size =? 0) && negb (col =? size - 1).

Definition isBottomBorder (size row : nat) : bool :=
  ((row + 1) mod Nat.sqrt size =? 0) && negb (row =? size - 1).

End SudokuGrid.

(** ** The page: its state and its handlers *)

Module Page.

(** The state of the page.  [aliased] tells that [grid] and
    [originalGrid] are one and the same array, as they are after
    [handleGridSizeChange] and [handleClearGrid]; [solveTime] is in ms. *)
Record t := mk {
  gridSize : nat;
  grid : board;
  originalGrid : board;
  aliased : bool;
  isAnimating : bool;
  solveStatus : string;
  solveTime : Z
}.

(** [Array(n).fill(null).map(() => Array(n).fill(0))] *)
Definition emptyGrid (n : nat) : board := replicate n (replicate n 0%Z).

(** The state after the first render: two grids of their own. *)
Definition initial : t := mk 9 (emptyGrid 9) (emptyGrid 9) false false "" 0.

(** [newSize] is [parseInt(size)] for the value of the item selected,
    "4", "9" or "16".  This handler does not look at [isAnimating]. *)
Definition handleGridSizeChange (newSize : nat) (p : t) : t :=
  mk newSize (emptyGrid newSize) (emptyGrid newSize) true (isAnimating p) "" 0.

(** [grid.map((r, i) => r.map((c, j) => (i === row && j === col) ? value : c))] *)
Definition withCell (g : board) (row col : nat) (value : Z) : board :=
  imap (fun i r => imap (fun j c => if decide (i = row /\ j = col) then value else c) r) g.

Definition handleCellChange (row col : nat) (value : Z) (p : t) : t :=
  if isAnimating p then p
  else mk (gridSize p) (withCell (grid p) row col value) (originalGrid p) false
          (isAnimating p) (solveStatus p) (solveTime p).

Definition handleClearGrid (p : t) : t :=
  if isAnimating p then p
  else mk (gridSize p) (emptyGrid (gridSize p)) (emptyGrid (gridSize p)) true
          (isAnimating p) "" 0.

(** The click and the timer it sets, run without another handler in
    between: the timer's function calls the generator with the size the
    click saw.  (The second timer, which blanks the status two seconds
    later, is [statusTimeout].) *)
Definition handleGeneratePuzzle (p : t) : Rand t :=
  if isAnimating p then mret p
  else
    puzzle ← generatePuzzle (gridSize p);
    mret (mk (gridSize p) puzzle puzzle false (isAnimating p)
             "Puzzle generated!" (solveTime p)).

(** [setTimeout(() => setSolveStatus(''), ...)] *)
Definition statusTimeout (p : t) : t :=
  mk (gridSize p) (grid p) (originalGrid p) (aliased p) (isAnimating p) ""
     (solveTime p).

(** The whole of [handleSolve], run without another handler in between;
    [startTime] and [endTime] are the two readings of [Date.now()].
    isValidSudoku works on the array of [grid] itself, which is also the
    array of [originalGrid] when the two are aliased; the animated solver
    works on a copy, and every call of [onUpdate] sets [grid] to a copy of
    the board shown.  The [catch] branch is the answer to a solver call
    without a result. *)
Definition handleSolve (startTime endTime : Z) (p : t) : t :=
  if isAnimating p then p
  else
    let check := isValidSudoku (grid p) in
    let g := after check in
    let og := if aliased p then g else originalGrid p in
    if negb (valid check) then
      mk (gridSize p) g og (aliased p) false
         "Invalid puzzle - please check for conflicts" (solveTime p)
    else
      match solveSudokuAnimated g 50 with
      | Some (mkResult true final _, _) =>
          mk (gridSize p) final og false false "Solved!" (endTime - startTime)
      | Some (mkResult false _ _, events) =>
          match last (shown events) with
          | Some snap =>
              mk (gridSize p) snap og false false "No solution exists"
                 (endTime - startTime)
          | None =>
              mk (gridSize p) g og (aliased p) false "No solution exists"
                 (endTime - startTime)
          end
      | None =>
          mk (gridSize p) g og (aliased p) false "Error solving puzzle"
             (solveTime p)
      end.

(** What typing [value] into the input of the cell [(row, col)] does: a
    disabled input takes no typing; an enabled one calls
    [handleInputChange], whose [onChange] is [handleCellChange]. *)
Definition typeInCell (parseInt : string -> option Z) (row col : nat)
    (value : string) (p : t) : t :=
  if SudokuGrid.disabled (originalGrid p) (isAnimating p) row col then p
  else
    match SudokuGrid.handleInputChange parseInt (gridSize p) row col value with
    | Some (r, c, v) => handleCellChange r c v p
    | None => p
    end.

(** One action of the user, or one timer, each run to its end. *)
Inductive step (parseInt : string -> option Z) : t -> t -> Prop :=
| step_size (newSize : nat) p :
    newSize = 4 \/ newSize = 9 \/ newSize = 16 ->
    step parseInt p (handleGridSizeChange newSize p)
| step_type row col value p :
    is_Some (cell (grid p) row col) ->
    step parseInt p (typeInCell parseInt row col value p)
| step_clear p : step parseInt p (handleClearGrid p)
| step_generate p rs p' rs' :
    handleGeneratePuzzle p rs = Some (p', rs') -> step parseInt p p'
| step_solve startTime endTime p :
    step parseInt p (handleSolve startTime endTime p)
| step_timeout p : step parseInt p (statusTimeout p).

(** What every state of the page satisfies between two actions: the size
    is one of the three on offer, both grids are N x N, the cells of
    [grid] hold 0..N, and the cells that [originalGrid] has filled hold
    the same values in [grid]. *)
Definition invariant (p : t) : Prop :=
  (gridSize p = 4 \/ gridSize p = 9 \/ gridSize p = 16) /\
  length (grid p) = gridSize p /\ square (grid p) /\
  length (originalGrid p) = gridSize p /\ square (originalGrid p) /\
  inRange (grid p) /\
  keepsFilled (originalGrid p) (grid p) /\
  (aliased p = true -> originalGrid p = grid p) /\
  isAnimating p = false.

End Page.

(** ** Boards and runs used as examples *)

(** The board of the 4 x 4 scenario: one cell is left to fill. *)
Definition scenario4 : board :=
  [[1; 2; 3; 4]; [3; 4; 1; 2]; [2; 1; 4; 3]; [4; 3; 2; 0]]%Z.

(** A run of the generator on a 4 x 4 grid: the draws of the two shuffles,
    and the grid they seed. *)
Definition draws4 : list Q := [3 # 4; 2 # 3; 1 # 2; 3 # 4; 1 # 3; 1 # 2]%Q.

Definition seeded4 : board :=
  [[1; 2; 0; 0]; [3; 4; 0; 0]; [0; 0; 1; 3]; [0; 0; 2; 4]]%Z.

(** A run of the generator on a 9 x 9 grid: every shuffle draws 0, the
    share kept is 0.3, and the removal loop draws the cells in row-major
    order. *)
Definition draws9 : list Q :=
  repeat 0%Q 24 ++ [0%Q] ++
  flat_map (fun p => [Z.of_nat p.1 # 9; Z.of_nat p.2 # 9]%Q) (take 57 (cells 9)).

Definition puzzle9 : board :=
  [[0; 0; 0; 0; 0; 0; 0; 0; 0]; [0; 0; 0; 0; 0; 0; 0; 0; 0];
   [0; 0; 0; 0; 0; 0; 0; 0; 0]; [0; 0; 0; 0; 0; 0; 0; 0; 0];
   [0; 0; 0; 0; 0; 0; 0; 0; 0]; [0; 0; 0; 0; 0; 0; 0; 0; 0];
   [0; 0; 0; 7; 1; 5; 2; 3; 4]; [3; 1; 2; 9; 4; 8; 5; 6; 7];
   [7; 4; 5; 6; 2; 3; 8; 9; 1]]%Z.

(** The scenario board with its last cell filled in. *)
Definition solved4 : board :=
  [[1; 2; 3; 4]; [3; 4; 1; 2]; [2; 1; 4; 3]; [4; 3; 2; 1]]%Z.

(** A run of the generator on a 4 x 4 grid with the largest draw for the
    share kept: both shuffles leave 1,2,3,4 in place, the solver
    completes the seeded grid, and the removal loop draws the cells of
    the first two rows. *)
Definition drawsHalf4 : list Q :=
  [3 # 4; 3 # 4; 1 # 2; 3 # 4; 3 # 4; 1 # 2]%Q ++ [lastDraw] ++
  flat_map (fun p => [Z.of_nat p.1 # 4; Z.of_nat p.2 # 4]%Q) (take 8 (cells 4)).

Definition puzzleHalf4 : board :=
  [[0; 0; 0; 0]; [0; 0; 0; 0]; [4; 3; 1; 2]; [2; 1; 3; 4]]%Z.

(** A run of the generator on a 4 x 4 grid that seeds [seeded4], draws
    the largest draw for the share kept, and then the eight cells that
    the seeding has filled. *)
Definition drawsEmpty4 : list Q :=
  [3 # 4; 3 # 4; 1 # 2; 3 # 4; 1 # 2; 1 # 2]%Q ++ [lastDraw] ++
  flat_map (fun p => [Z.of_nat p.1 # 4; Z.of_nat p.2 # 4]%Q)
    [(0, 0); (0, 1); (1, 0); (1, 1); (2, 2); (2, 3); (3, 2); (3, 3)].

(** The draws of one shuffle of four numbers, and of the two shuffles of
    generatePuzzle(4): 24 and 576 runs. *)
Definition boxDraws4 : list (list Q) :=
  j3 ← seq 0 4; j2 ← seq 0 3; j1 ← seq 0 2;
  [[Z.of_nat j3 # 4; Z.of_nat j2 # 3; Z.of_nat j1 # 2]%Q].

Definition allDraws4 : list (list Q) :=
  d1 ← boxDraws4; d2 ← boxDraws4; [d1 ++ d2].

(** Whether the solver completes the grid seeded with the draws [rs]. *)
Definition seedSolved (size : nat) (rs : list Q) : bool :=
  match seedPuzzle size rs with
  | Some (g, _) =>
      match solveSudoku g with
      | Some res => solved res
      | None => false
      end
  | None => false
  end.

(** * Properties *)

(** ** Reading and writing cells *)

Section Cells.
Implicit Types (b : board) (row col r c : nat) (v w : Z).

Lemma length_setCell b row col v : length (setCell b row col v) = length b.
Proof. apply length_alter. Qed.

Lemma cell_setCell b row col v r c :
  cell (setCell b row col v) r c =
  if decide (row = r /\ col = c /\ is_Some (cell b row col))
  then Some v else cell b r c.
Proof.
  unfold cell, setCell. rewrite list_lookup_alter.
  destruct (decide (row = r)) as [->|Hr].
  - destruct (b !! r) as [l|] eqn:Hl; simpl.
    + rewrite list_lookup_insert.
      destruct (decide (col = c)) as [->|Hc].
      * destruct (l !! c) eqn:Hc.
        -- apply lookup_lt_Some in Hc.
           rewrite !decide_True; eauto.
        -- rewrite !decide_False; auto.
           ++ intros (_ & _ & [? ?]); congruence.
           ++ apply lookup_ge_None in Hc. lia.
      * rewrite !decide_False; tauto.
    + rewrite decide_False; auto. intros (_ & _ & [? ?]); congruence.
  - rewrite decide_False; tauto.
Qed.

Lemma cell_setCell_eq b row col v w :
  cell b row col = Some w -> cell (setCell b row col v) row col = Some v.
Proof. intros H. rewrite cell_setCell, decide_True; eauto. Qed.

Lemma cell_setCell_ne b row col v r c :
  (row, col) <> (r, c) -> cell (setCell b row col v) r c = cell b r c.
Proof.
  intros H. rewrite cell_setCell, decide_False; auto.
  intros (-> & -> & _); congruence.
Qed.

Lemma setCell_id b row col v :
  cell b row col = Some v -> setCell b row col v = b.
Proof.
  unfold cell, setCell. intros H. apply list_eq. intros i.
  rewrite list_lookup_alter. destruct (decide (row = i)) as [->|]; auto.
  destruct (b !! i) as [l|]; simpl; auto.
  by rewrite list_insert_id.
Qed.

Lemma setCell_setCell b row col v w :
  setCell (setCell b row col v) row col w = setCell b row col w.
Proof.
  unfold setCell. apply list_eq. intros i.
  destruct (decide (row = i)) as [->|].
  - rewrite !list_lookup_alter, !decide_True by done.
    destruct (b !! i) as [l|]; simpl; auto.
    by rewrite list_insert_insert_eq.
  - by rewrite !list_lookup_alter_ne.
Qed.

(** Undoing a placement on an empty cell gives the board back. *)
Lemma setCell_undo b row col v :
  cell b row col = Some 0%Z -> setCell (setCell b row col v) row col 0 = b.
Proof. intros H. rewrite setCell_setCell. by apply setCell_id. Qed.

Lemma cellIs_true b row col v :
  cellIs b row col v = true <-> cell b row col = Some v.
Proof.
  unfold cellIs. destruct (cell b row col) as [w|]; [|split; discriminate].
  rewrite Z.eqb_eq. split; congruence.
Qed.

Lemma cellIs_false b row col v :
  cellIs b row col v = false <-> cell b row col <> Some v.
Proof. rewrite <- cellIs_true. destruct (cellIs b row col v); split; congruence. Qed.

Lemma cell_lt b row col v : cell b row col = Some v -> row < length b.
Proof.
  unfold cell. destruct (b !! row) eqn:H; [|discriminate].
  intros _. by apply lookup_lt_Some in H.
Qed.

Lemma square_setCell b row col v : square b -> square (setCell b row col v).
Proof.
  unfold square, setCell. rewrite length_alter. intros H.
  apply Forall_lookup. intros i l. rewrite list_lookup_alter.
  rewrite Forall_lookup in H.
  destruct (decide (row = i)) as [->|]; [|apply H].
  destruct (b !! i) as [l'|] eqn:Hl; simpl; [|discriminate].
  intros [= <-]. rewrite length_insert. eauto.
Qed.

Lemma square_cell b r c :
  square b -> r < length b -> c < length b -> is_Some (cell b r c).
Proof.
  unfold square, cell. rewrite Forall_lookup. intros H Hr Hc.
  destruct (lookup_lt_is_Some_2 b r Hr) as [l Hl]. rewrite Hl.
  apply lookup_lt_is_Some_2. by rewrite (H _ _ Hl).
Qed.

Lemma square_cell_lt b r c v :
  square b -> cell b r c = Some v -> r < length b /\ c < length b.
Proof.
  unfold square, cell. rewrite Forall_lookup. intros H.
  destruct (b !! r) as [l|] eqn:Hl; [|discriminate]. intros Hc.
  split; [by apply lookup_lt_Some in Hl|].
  apply lookup_lt_Some in Hc. by rewrite <- (H _ _ Hl).
Qed.

Lemma in_cells n r c : In (r, c) (cells n) <-> r < n /\ c < n.
Proof. unfold cells. rewrite in_prod_iff, !in_seq. lia. Qed.
End Cells.

(** ** isSafe *)

Section Safe.
Implicit Types (b : board) (row col r c : nat) (num v : Z).

Lemma existsb_seq_false (f : nat -> bool) n :
  existsb f (seq 0 n) = false <-> forall x, x < n -> f x = false.
Proof.
  split.
  - intros H x Hx. apply not_true_is_false. intros Hf.
    assert (existsb f (seq 0 n) = true); [|congruence].
    apply existsb_exists. exists x. split; [apply in_seq; lia | done].
  - intros H. apply not_true_is_false. intros Hf.
    apply existsb_exists in Hf as (x & Hx & Hf). apply in_seq in Hx.
    rewrite H in Hf; [discriminate | lia].
Qed.

(** The three scans of isSafe, read off the code. *)
Lemma isSafe_scans b row col num :
  isSafe b row col num = true <->
  (forall x, x < length b -> cell b row x <> Some num) /\
  (forall x, x < length b -> cell b x col <> Some num) /\
  (forall i j, i < Nat.sqrt (length b) -> j < Nat.sqrt (length b) ->
     cell b (i + (row - row mod Nat.sqrt (length b)))
            (j + (col - col mod Nat.sqrt (length b))) <> Some num).
Proof.
  unfold isSafe.
  destruct (existsb _ (seq 0 (length b))) eqn:E1.
  { split; [discriminate|]. intros (H & _). exfalso.
    apply existsb_exists in E1 as (x & Hx & E). apply in_seq in Hx.
    apply cellIs_true in E. apply (H x); [lia | done]. }
  destruct (existsb (fun x => cellIs b x col num) _) eqn:E2.
  { split; [discriminate|]. intros (_ & H & _). exfalso.
    apply existsb_exists in E2 as (x & Hx & E). apply in_seq in Hx.
    apply cellIs_true in E. apply (H x); [lia | done]. }
  destruct (existsb _ (seq 0 (Nat.sqrt (length b)))) eqn:E3.
  { split; [discriminate|]. intros (_ & _ & H). exfalso.
    apply existsb_exists in E3 as (i & Hi & E). apply in_seq in Hi.
    apply existsb_exists in E as (j & Hj & E). apply in_seq in Hj.
    apply cellIs_true in E. apply (H i j); [lia | lia | done]. }
  split; [intros _ | done].
  rewrite existsb_seq_false in E1, E2, E3.
  split; [|split].
  - intros x Hx. apply cellIs_false. auto.
  - intros x Hx. apply cellIs_false. auto.
  - intros i j Hi Hj. apply cellIs_false.
    specialize (E3 i Hi). rewrite existsb_seq_false in E3. auto.
Qed.

(** The cells of the box scan are the cells of the same box. *)
Lemma box_cells bs x y :
  0 < bs ->
  (exists i, i < bs /\ y = i + (x - x mod bs)) <-> x / bs = y / bs.
Proof.
  intros Hbs.
  pose proof (Nat.div_mod_eq x bs) as Hx.
  pose proof (Nat.mod_upper_bound x bs ltac:(lia)) as Hxm.
  pose proof (Nat.div_mod_eq y bs) as Hy.
  pose proof (Nat.mod_upper_bound y bs ltac:(lia)) as Hym.
  split.
  - intros (i & Hi & ->).
    replace (i + (x - x mod bs)) with (i + (x / bs) * bs) by lia.
    rewrite Nat.div_add by lia. rewrite (Nat.div_small i bs) by lia. lia.
  - intros E. exists (y mod bs). split; [done|]. rewrite E in Hx. lia.
Qed.

(** On a board whose side is [bs * bs], isSafe holds exactly when no
    cell of the row, the column or the box holds [num]; the cell
    [(row, col)] itself is one of the cells scanned. *)
Lemma isSafe_related b bs row col num :
  length b = bs * bs -> row < length b -> col < length b ->
  isSafe b row col num = true <->
  (forall r c, r < length b -> c < length b ->
     related bs (row, col) (r, c) -> cell b r c <> Some num).
Proof.
  intros Hn Hrow Hcol. rewrite isSafe_scans.
  assert (Nat.sqrt (length b) = bs) as ->.
  { rewrite Hn. apply Nat.sqrt_square. }
  assert (0 < bs) as Hbs by (destruct bs; simpl in *; lia).
  unfold related; simpl. split.
  - intros (H1 & H2 & H3) r c Hr Hc [<- | [<- | [Er Ec]]]; auto.
    apply box_cells in Er as (i & Hi & ->); [|done].
    apply box_cells in Ec as (j & Hj & ->); [|done]. auto.
  - intros H. split; [|split].
    + intros x Hx. apply H; auto.
    + intros x Hx. apply H; auto.
    + intros i j Hi Hj.
      assert (forall x k, x < bs * bs -> k < bs -> k + (x - x mod bs) < bs * bs)
        as Hin.
      { intros x k Hx Hk.
        pose proof (Nat.div_mod_eq x bs).
        pose proof (Nat.mod_upper_bound x bs ltac:(lia)).
        assert (x / bs < bs) by (apply Nat.Div0.div_lt_upper_bound; lia).
        nia. }
      apply H; [rewrite Hn; apply Hin; lia | rewrite Hn; apply Hin; lia |].
      right; right. split; apply box_cells; eauto.
Qed.
End Safe.

(** ** The search *)

Section Search.
Implicit Types (b : board) (row col r c : nat) (st : search).

Lemma firstEmpty_Some b row col :
  firstEmpty b = Some (row, col) ->
  cell b row col = Some 0%Z /\ row < length b /\ col < length b.
Proof.
  unfold firstEmpty. intros H. apply find_some in H as [Hin H].
  apply in_cells in Hin. apply cellIs_true in H. auto.
Qed.

Lemma firstEmpty_None b :
  firstEmpty b = None <->
  forall r c, r < length b -> c < length b -> cell b r c <> Some 0%Z.
Proof.
  unfold firstEmpty. split.
  - intros H r c Hr Hc. apply cellIs_false.
    apply (find_none _ _ H (r, c)). by apply in_cells.
  - intros H. destruct (find _ _) as [[r c]|] eqn:E; [|done].
    apply find_some in E as [Hin E]. apply in_cells in Hin.
    apply cellIs_true in E. simpl in E. destruct (H r c); tauto.
Qed.

(** Induction over the frames of the search.  A frame that fails hands
    the board back as it received it, so every candidate of a frame is
    tested on the board the frame was entered with. *)
Lemma solve_ind (P : board -> bool -> board -> Prop) :
  (forall b, firstEmpty b = None -> P b true b) ->
  (forall b row col, firstEmpty b = Some (row, col) -> P b false b) ->
  (forall b row col num b',
     firstEmpty b = Some (row, col) -> 1 <= num <= length b ->
     isSafe b row col (Z.of_nat num) = true ->
     P (setCell b row col (Z.of_nat num)) true b' -> P b true b') ->
  forall fuel b s ok b' s',
    solve fuel (b, s) = Some (ok, (b', s')) ->
    P b ok b' /\ (ok = false -> b' = b).
Proof.
  intros Hfull Hfail Hplace.
  induction fuel as [|fuel IH]; intros b s ok b' s'; [discriminate|].
  simpl. destruct (firstEmpty b) as [[row col]|] eqn:Hfe.
  2:{ intros [= <- <- <-]. split; [auto | done]. }
  generalize (S s). clear s.
  assert (Forall (fun num => 1 <= num <= length b) (seq 1 (length b))) as Hnums.
  { apply Forall_forall. intros num Hin. apply elem_of_seq in Hin. lia. }
  revert Hnums. generalize (seq 1 (length b)) as nums.
  induction nums as [|num nums IHn]; intros Hnums s; simpl.
  { intros [= <- <- <-]. split; [eauto | done]. }
  apply Forall_cons in Hnums as [Hnum Hnums].
  destruct (isSafe b row col (Z.of_nat num)) eqn:Hsafe; [|by apply IHn].
  destruct (solve fuel _) as [[[] [b1 s1]]|] eqn:Hrec; [| |discriminate].
  - intros [= <- <- <-]. apply IH in Hrec as [HP _]. split; [eauto | done].
  - apply IH in Hrec as [_ ->]; [|done]. simpl.
    rewrite setCell_undo by (by apply firstEmpty_Some in Hfe as [? _]).
    by apply IHn.
Qed.

(** A successful search leaves no empty cell. *)
Lemma solve_full fuel b s b' s' :
  solve fuel (b, s) = Some (true, (b', s')) -> firstEmpty b' = None.
Proof.
  intros H.
  apply (solve_ind (fun _ ok b' => ok = true -> firstEmpty b' = None)) in H;
    [by apply H | auto | discriminate | auto].
Qed.

(** The search only writes to cells that were empty. *)
Lemma solve_frame fuel b s ok b' s' :
  solve fuel (b, s) = Some (ok, (b', s')) ->
  length b' = length b /\
  (forall r c v, cell b r c = Some v -> v <> 0%Z -> cell b' r c = Some v) /\
  (ok = false -> b' = b).
Proof.
  intros H.
  apply (solve_ind (fun b _ b' =>
           length b' = length b /\
           forall r c v, cell b r c = Some v -> v <> 0%Z -> cell b' r c = Some v))
    in H; [tauto | auto | auto |].
  clear. intros b row col num b' Hfe _ _ [Hlen Hcells].
  rewrite length_setCell in Hlen. split; [done|].
  intros r c v Hv Hnz. apply Hcells; [|done].
  rewrite cell_setCell_ne; [done|].
  apply firstEmpty_Some in Hfe as [Hz _]. intros [= -> ->]. congruence.
Qed.

Lemma filter_length_shrink {A} (P Q : A -> Prop)
    `{!forall x, Decision (P x)} `{!forall x, Decision (Q x)} (l : list A) x :
  (forall y, Q y -> P y) -> In x l -> P x -> ~ Q x ->
  length (filter Q l) < length (filter P l).
Proof.
  intros HQP Hin HP HQ. induction l as [|y l IH]; [destruct Hin|].
  assert (length (filter Q l) <= length (filter P l)) as Hle.
  { clear -HQP. induction l as [|z l IH]; [done|].
    rewrite !filter_cons. repeat case_decide; simpl; try lia.
    exfalso; auto. }
  rewrite !filter_cons. destruct Hin as [->|Hin].
  - rewrite (decide_False (P:=Q x)), (decide_True (P:=P x)) by done. simpl. lia.
  - specialize (IH Hin). repeat case_decide; simpl; try lia.
    exfalso; auto.
Qed.

(** A placement fills one of the empty cells. *)
Lemma empties_setCell b row col v :
  firstEmpty b = Some (row, col) -> v <> 0%Z ->
  empties (setCell b row col v) < empties b.
Proof.
  intros Hfe Hv. apply firstEmpty_Some in Hfe as (Hz & Hr & Hc).
  unfold empties. rewrite length_setCell.
  apply (filter_length_shrink _ _ _ (row, col)).
  - intros [r c]; simpl. rewrite !cellIs_true, cell_setCell.
    case_decide; [congruence | done].
  - by apply in_cells.
  - simpl. by apply cellIs_true.
  - simpl. rewrite cellIs_true, (cell_setCell_eq _ _ _ _ _ Hz). congruence.
Qed.

(** The search returns: a frame is entered with one empty cell fewer
    than its caller. *)
Lemma solve_total fuel b s :
  empties b < fuel -> is_Some (solve fuel (b, s)).
Proof.
  revert b s. induction fuel as [|fuel IH]; intros b s Hfuel; [lia|].
  simpl. destruct (firstEmpty b) as [[row col]|] eqn:Hfe; [|eauto].
  generalize (S s). clear s.
  assert (Forall (fun num => 1 <= num) (seq 1 (length b))) as Hnums.
  { apply Forall_forall. intros num Hin. apply elem_of_seq in Hin. lia. }
  revert Hnums. generalize (seq 1 (length b)) as nums.
  induction nums as [|num nums IHn]; intros Hnums s; simpl; [eauto|].
  apply Forall_cons in Hnums as [Hnum Hnums].
  destruct (isSafe b row col (Z.of_nat num)); [|by apply IHn].
  destruct (IH (setCell b row col (Z.of_nat num)) s) as [[ok [b1 s1]] Hrec].
  { pose proof (empties_setCell b row col (Z.of_nat num) Hfe). lia. }
  rewrite Hrec. destruct ok; [eauto|].
  apply solve_frame in Hrec as (_ & _ & ->); [|done]. simpl.
  rewrite setCell_undo by (by apply firstEmpty_Some in Hfe as [? _]).
  by apply IHn.
Qed.

Lemma solveSudoku_total b : is_Some (solveSudoku b).
Proof.
  unfold solveSudoku.
  destruct (solve_total (S (empties b)) b 0) as [[ok [b' n]] ->]; [lia|eauto].
Qed.

Lemma solveSudoku_solve b res :
  solveSudoku b = Some res ->
  solve (S (empties b)) (b, 0) = Some (solved res, (grid res, steps res)).
Proof.
  unfold solveSudoku.
  destruct (solve _ _) as [[ok [b' n]]|]; [|discriminate]. by intros [= <-].
Qed.
End Search.

(** ** The animated search *)

Section Animated.
Variable delay : Q.

Lemma tryNumsAnimated_erase recA rec row col nums :
  (forall b n tr, erase (recA (b, n, tr)) = rec (b, n)) ->
  forall b n tr,
    erase (tryNumsAnimated delay recA row col nums (b, n, tr)) =
    tryNums rec row col nums (b, n).
Proof.
  intros Hrec. induction nums as [|num nums IH]; intros b n tr; simpl; [done|].
  destruct (isSafe b row col (Z.of_nat num)); [|apply IH].
  unfold emit; simpl.
  specialize (Hrec (setCell b row col (Z.of_nat num)) n
    ((tr ++ [Update (setCell b row col (Z.of_nat num))]) ++ [Sleep delay])).
  destruct (recA _) as [[ok [[b1 n1] tr1]]|]; simpl in Hrec; rewrite <- Hrec;
    [|done].
  destruct ok; simpl; [done | apply IH].
Qed.

(** The animated search is the plain search plus its events. *)
Lemma solveAnimated_erase fuel b n tr :
  erase (solveAnimated delay fuel (b, n, tr)) = solve fuel (b, n).
Proof.
  revert b n tr. induction fuel as [|fuel IH]; intros b n tr; simpl; [done|].
  destruct (firstEmpty b) as [[row col]|]; [|done].
  by apply tryNumsAnimated_erase.
Qed.
End Animated.

(** ** Claims about isSafe and the two solvers *)

(** C2: on a board of side N = bs * bs, for a cell (row, col) that holds 0
    and a value of 1..N, isSafe returns true exactly when the value occurs
    nowhere else in the row, nowhere else in the column and nowhere else in
    the box whose top-left corner is (row - row mod bs, col - col mod bs).
    isSafe only reads the board: the embedding has no board to return. *)
Theorem isSafe_iff_absent_elsewhere (b : board) (bs row col : nat) (value : Z) :
  length b = bs * bs -> row < length b -> col < length b ->
  (1 <= value <= Z.of_nat (length b))%Z ->
  cell b row col = Some 0%Z ->
  isSafe b row col value = true <->
  (forall x, x < length b -> x <> col -> cell b row x <> Some value) /\
  (forall x, x < length b -> x <> row -> cell b x col <> Some value) /\
  (forall i j, i < bs -> j < bs ->
     (i + (row - row mod bs), j + (col - col mod bs)) <> (row, col) ->
     cell b (i + (row - row mod bs)) (j + (col - col mod bs)) <> Some value).
Proof.
  intros Hn Hrow Hcol Hval Hz. rewrite isSafe_scans.
  assert (Nat.sqrt (length b) = bs) as -> by (rewrite Hn; apply Nat.sqrt_square).
  assert (cell b row col <> Some value) as Hself by (rewrite Hz; intros [=]; lia).
  split; intros (H1 & H2 & H3); (split; [|split]).
  - auto.
  - auto.
  - auto.
  - intros x Hx. destruct (decide (x = col)) as [->|]; auto.
  - intros x Hx. destruct (decide (x = row)) as [->|]; auto.
  - intros i j Hi Hj.
    destruct (decide ((i + (row - row mod bs), j + (col - col mod bs)) = (row, col)))
      as [[= -> ->]|]; auto.
Qed.

Lemma isSafe_iff_absent_elsewhere_witness :
  isSafe scenario4 3 3 1 = true <->
  (forall x, x < 4 -> x <> 3 -> cell scenario4 3 x <> Some 1%Z) /\
  (forall x, x < 4 -> x <> 3 -> cell scenario4 x 3 <> Some 1%Z) /\
  (forall i j, i < 2 -> j < 2 ->
     (i + (3 - 3 mod 2), j + (3 - 3 mod 2)) <> (3, 3) ->
     cell scenario4 (i + (3 - 3 mod 2)) (j + (3 - 3 mod 2)) <> Some 1%Z).
Proof.
  apply (isSafe_iff_absent_elsewhere scenario4 2 3 3 1);
    [reflexivity | simpl; lia | simpl; lia | simpl; lia | reflexivity].
Defined.

(** C10: isSafe returns false for the value a cell already holds, since
    the scans go over the cell itself; a caller that checks a placed value
    has to clear the cell first. *)
Theorem isSafe_false_on_placed_value (b : board) (row col : nat) (v : Z) :
  cell b row col = Some v -> v <> 0%Z -> isSafe b row col v = false.
Proof.
  intros Hv _. apply not_true_is_false. rewrite isSafe_scans.
  intros (_ & Hcol & _). apply (Hcol row); [by apply cell_lt in Hv | done].
Qed.

Lemma isSafe_false_on_placed_value_witness : isSafe scenario4 0 1 2 = false.
Proof.
  apply (isSafe_false_on_placed_value scenario4 0 1 2); [reflexivity | lia].
Defined.

(** C3: for every starting board and every delay, the plain and the
    animated solver both return, with the same solved flag, the same final
    board and the same step count. *)
Theorem animated_agrees_with_plain (b : board) (delay : Q) :
  exists res events,
    solveSudoku b = Some res /\
    solveSudokuAnimated b delay = Some (res, events).
Proof.
  destruct (solveSudoku_total b) as [res Hres]. exists res.
  pose proof (solveSudoku_solve _ _ Hres) as Hs.
  unfold solveSudokuAnimated.
  pose proof (solveAnimated_erase delay (S (empties b)) b 0 []) as He.
  rewrite Hs in He.
  destruct (solveAnimated _ _ _) as [[ok [[b' n] tr]]|]; [|discriminate].
  injection He as -> -> ->. exists tr. by destruct res.
Qed.

(** C4, as the code has it: on the board of the scenario solveSudoku
    returns solved = true after two steps, and the last cell holds 1, the
    one value that row 3, column 3 and the lower right box still miss. *)
Theorem scenario4_solved_last_cell_1 :
  solveSudoku scenario4 =
    Some (mkResult true
            [[1; 2; 3; 4]; [3; 4; 1; 2]; [2; 1; 4; 3]; [4; 3; 2; 1]]%Z 2) /\
  (forall res, solveSudoku scenario4 = Some res -> cell (grid res) 3 3 = Some 1%Z).
Proof.
  split; [reflexivity|]. by intros res [= <-].
Qed.

(** C4, as stated, fails: the last cell of the solved board is not 4. *)
Lemma scenario4_last_cell_not_4 :
  ~ exists res, solveSudoku scenario4 = Some res /\
                solved res = true /\ cell (grid res) 3 3 = Some 4%Z.
Proof.
  intros (res & Hres & _ & Hcell). injection Hres as <-. discriminate Hcell.
Qed.

(** C5: on a board without an empty cell solveSudoku returns solved = true
    with step count 1 and the board as it was; whether the board is free of
    conflicts plays no part. *)
Theorem solveSudoku_full_board (b : board) :
  (forall r c, r < length b -> c < length b -> cell b r c <> Some 0%Z) ->
  solveSudoku b = Some (mkResult true b 1).
Proof.
  intros Hfull. apply firstEmpty_None in Hfull.
  unfold solveSudoku. simpl. by rewrite Hfull.
Qed.

Lemma solveSudoku_full_board_witness :
  solveSudoku [[1; 2; 3; 4]; [3; 4; 1; 2]; [2; 1; 4; 3]; [4; 3; 2; 1]]%Z =
  Some (mkResult true [[1; 2; 3; 4]; [3; 4; 1; 2]; [2; 1; 4; 3]; [4; 3; 2; 1]]%Z 1).
Proof.
  apply solveSudoku_full_board. by apply firstEmpty_None.
Defined.

(** C9: solveSudoku returns for every board; a cell that is filled in the
    input keeps its value in the returned board, and when solved is false
    the returned board is the input board. *)
Theorem solveSudoku_keeps_filled_cells (b : board) :
  exists res,
    solveSudoku b = Some res /\
    (forall r c v, cell b r c = Some v -> v <> 0%Z -> cell (grid res) r c = Some v) /\
    (solved res = false -> grid res = b).
Proof.
  destruct (solveSudoku_total b) as [res Hres]. exists res.
  split; [done|]. apply solveSudoku_solve, solve_frame in Hres. tauto.
Qed.

(** ** The validator *)

Section Validator.
Implicit Types (b : board) (p q : nat * nat).

(** The scan restores every cell it clears, calls isSafe on the filled
    cells in the order of the loops, and stops at the first conflict. *)
Lemma validScan_spec ps b seen :
  validScan ps b seen =
  mkValid (forallb (fun p => negb (conflicting b p)) (List.filter (filledAt b) ps))
          b
          (seen ++ uptoFirst (conflicting b) (List.filter (filledAt b) ps)).
Proof.
  revert seen. induction ps as [|[row col] ps IH]; intros seen; simpl.
  { by rewrite app_nil_r. }
  assert (filledAt b (row, col) =
          match cell b row col with
          | Some num => negb (Z.eqb num 0)
          | None => false
          end) as -> by done.
  destruct (cell b row col) as [num|] eqn:Hc; [|apply IH].
  destruct (Z.eqb num 0) eqn:Hz; simpl; [apply IH|].
  assert (conflicting b (row, col) =
          negb (isSafe (setCell b row col 0) row col num)) as ->.
  { unfold conflicting; simpl. by rewrite Hc. }
  rewrite setCell_setCell, (setCell_id _ _ _ _ Hc).
  destruct (isSafe _ row col num); simpl; [|done].
  by rewrite IH, <- app_assoc.
Qed.

Lemma conflicting_false b bs p v :
  square b -> length b = bs * bs ->
  cell b p.1 p.2 = Some v -> v <> 0%Z ->
  conflicting b p = false <->
  (forall q, q <> p -> related bs p q -> cell b q.1 q.2 <> Some v).
Proof.
  intros Hsq Hn Hv Hnz. destruct p as [row col]; simpl in *.
  destruct (square_cell_lt _ _ _ _ Hsq Hv) as [Hrow Hcol].
  unfold conflicting; simpl. rewrite Hv, negb_false_iff.
  rewrite (isSafe_related _ bs) by (by rewrite ?length_setCell).
  rewrite length_setCell. split.
  - intros H [r c] Hne Hrel; simpl. intros Hq.
    destruct (square_cell_lt _ _ _ _ Hsq Hq) as [Hr Hc].
    apply (H r c Hr Hc Hrel). by rewrite cell_setCell_ne.
  - intros H r c Hr Hc Hrel. rewrite cell_setCell.
    case_decide as Hd.
    + intros [= <-]. done.
    + apply (H (r, c)); [|done]. intros [= -> ->].
      apply Hd. rewrite Hv. eauto.
Qed.

Lemma related_sym bs p q : related bs p q -> related bs q p.
Proof. unfold related. intuition congruence. Qed.

(** On an N x N board with N = bs * bs, the validator accepts exactly
    the boards without a conflict. *)
Lemma isValidSudoku_conflictFree b bs :
  square b -> length b = bs * bs ->
  valid (isValidSudoku b) = true <-> conflictFree b.
Proof.
  intros Hsq Hn. unfold isValidSudoku. rewrite validScan_spec; simpl.
  unfold conflictFree.
  assert (Nat.sqrt (length b) = bs) as -> by (rewrite Hn; apply Nat.sqrt_square).
  rewrite forallb_forall. split.
  - intros H p q v Hp Hq Hnz Hne Hrel.
    assert (conflicting b p = false) as Hcf.
    { apply negb_true_iff, H, filter_In.
      destruct (square_cell_lt _ _ _ _ Hsq Hp).
      split; [destruct p; by apply in_cells|].
      unfold filledAt. rewrite Hp. apply negb_true_iff, Z.eqb_neq. done. }
    rewrite (conflicting_false b bs p v) in Hcf by done.
    by apply (Hcf q).
  - intros H p Hin. apply filter_In in Hin as [_ Hf].
    unfold filledAt in Hf. destruct (cell b p.1 p.2) as [v|] eqn:Hp; [|done].
    apply negb_true_iff, Z.eqb_neq in Hf.
    apply negb_true_iff. rewrite (conflicting_false b bs p v) by done.
    intros q Hne Hrel Hq. by apply (H p q v).
Qed.

Lemma validScan_zero n ps seen :
  validScan ps (replicate n (replicate n 0%Z)) seen =
  mkValid true (replicate n (replicate n 0%Z)) seen.
Proof.
  induction ps as [|[row col] ps IH]; simpl; [done|].
  destruct (cell _ row col) as [num|] eqn:Hc; [|done].
  unfold cell in Hc.
  destruct (replicate n (replicate n 0%Z) !! row) as [l|] eqn:Hl; [|done].
  apply lookup_replicate in Hl as [-> _].
  apply lookup_replicate in Hc as [-> _]. done.
Qed.
End Validator.


(** ** The random source *)

Section Random.
Lemma rand_bind_Some {A B} (m : Rand A) (f : A -> Rand B) rs y rs2 :
  (m ≫= f) rs = Some (y, rs2) <->
  exists x rs1, m rs = Some (x, rs1) /\ f x rs1 = Some (y, rs2).
Proof.
  unfold mbind, rand_bind. destruct (m rs) as [[x rs1]|]; split.
  - eauto.
  - by intros (? & ? & [= <- <-] & ?).
  - discriminate.
  - by intros (? & ? & [=] & ?).
Qed.

Lemma consumes_ret {A} (x : A) : consumes (mret x).
Proof. intros rs y rs' [= <- <-]. done. Qed.

Lemma consumes_bind {A B} (m : Rand A) (f : A -> Rand B) :
  consumes m -> (forall x, consumes (f x)) -> consumes (m ≫= f).
Proof.
  intros Hm Hf rs y rs2 H. apply rand_bind_Some in H as (x & rs1 & H1 & H2).
  etrans; [by eapply Hf | by eapply Hm].
Qed.

Lemma consumes_random : consumes random.
Proof.
  intros [|u rs] x rs'; [discriminate|]. intros [= <- <-].
  by apply suffix_cons_r.
Qed.

Lemma consumes_randomBelow k : consumes (randomBelow k).
Proof.
  apply consumes_bind; [apply consumes_random | intros; apply consumes_ret].
Qed.

Lemma consumes_liftOption {A} (o : option A) : consumes (liftOption o).
Proof. intros rs x rs'. destruct o; [|discriminate]. by intros [= <- <-]. Qed.

Lemma consumes_shuffle i numbers : consumes (shuffle i numbers).
Proof.
  revert numbers. induction i as [|i IH]; intros numbers; simpl.
  - apply consumes_ret.
  - apply consumes_bind; [apply consumes_randomBelow | auto].
Qed.

Lemma consumes_fillBox grid row col size : consumes (fillBox grid row col size).
Proof.
  apply consumes_bind; [apply consumes_shuffle | intros; apply consumes_ret].
Qed.

Lemma consumes_seedDiagonal n i size grid :
  consumes (seedDiagonal n i size grid).
Proof.
  revert i grid. induction n as [|n IH]; intros i grid; simpl.
  - apply consumes_ret.
  - destruct (i <? size); [|apply consumes_ret].
    apply consumes_bind; [apply consumes_fillBox | auto].
Qed.

Lemma stable_ret {A} (x : A) : stable (mret x).
Proof. by intros rs y rs' more [= <- <-]. Qed.

Lemma stable_bind {A B} (m : Rand A) (f : A -> Rand B) :
  stable m -> (forall x, stable (f x)) -> stable (m ≫= f).
Proof.
  intros Hm Hf rs y rs2 more H.
  apply rand_bind_Some in H as (x & rs1 & H1 & H2).
  apply rand_bind_Some. exists x, (rs1 ++ more). split; [by apply Hm | by apply Hf].
Qed.

Lemma stable_random : stable random.
Proof. intros [|u rs] x rs' more; [done|]. by intros [= <- <-]. Qed.

Lemma stable_randomBelow k : stable (randomBelow k).
Proof. apply stable_bind; [apply stable_random | intros; apply stable_ret]. Qed.

Lemma stable_liftOption {A} (o : option A) : stable (liftOption o).
Proof. intros rs x rs' more. destruct o; [|done]. by intros [= <- <-]. Qed.

Lemma stable_shuffle i numbers : stable (shuffle i numbers).
Proof.
  revert numbers. induction i as [|i IH]; intros numbers; simpl.
  - apply stable_ret.
  - apply stable_bind; [apply stable_randomBelow | auto].
Qed.

Lemma stable_fillBox grid row col size : stable (fillBox grid row col size).
Proof. apply stable_bind; [apply stable_shuffle | intros; apply stable_ret]. Qed.

Lemma stable_seedDiagonal n i size grid : stable (seedDiagonal n i size grid).
Proof.
  revert i grid. induction n as [|n IH]; intros i grid; simpl.
  - apply stable_ret.
  - destruct (i <? size); [|apply stable_ret].
    apply stable_bind; [apply stable_fillBox | auto].
Qed.

Lemma stable_pickFilled size grid : stable (pickFilled size grid).
Proof.
  intros rs. remember (length rs) as n eqn:Hn. revert rs Hn.
  induction n as [n IH] using lt_wf_ind. intros rs -> x rs' more.
  destruct rs as [|u [|v rs1]]; simpl; [done | done |].
  destruct (cellIs grid _ _ 0); [|by intros [= <- <-]].
  apply (IH (length rs1)); [simpl; lia | done].
Qed.

Lemma stable_removeCells n size grid : stable (removeCells n size grid).
Proof.
  revert grid. induction n as [|n IH]; intros grid; simpl.
  - apply stable_ret.
  - apply stable_bind; [apply stable_pickFilled | auto].
Qed.

(** A run of the generator that returns keeps its result when the random
    source has more to give: the lists of draws stand for the streams that
    start with them. *)
Lemma stable_generatePuzzle size : stable (generatePuzzle size).
Proof.
  unfold generatePuzzle, seedPuzzle.
  apply stable_bind; [apply stable_seedDiagonal | intros g].
  apply stable_bind; [apply stable_liftOption | intros res].
  apply stable_bind; [apply stable_random | intros u].
  apply stable_removeCells.
Qed.

Lemma suffix_Forall {A} (P : A -> Prop) (l1 l2 : list A) :
  l1 `suffix_of` l2 -> Forall P l2 -> Forall P l1.
Proof. intros [k ->] H. by apply Forall_app in H as [_ H]. Qed.

Lemma floorTimes_lt u k : unitDraw u -> 0 < k -> floorTimes u k < k.
Proof.
  intros [H0 H1] Hk. unfold floorTimes.
  set (K := inject_Z (Z.of_nat k)).
  assert (0 < K)%Q as HK.
  { unfold K. change 0%Q with (inject_Z 0). rewrite <- Zlt_Qlt. lia. }
  assert (0 <= Qfloor (u * K))%Z.
  { change 0%Z with (Qfloor 0). apply Qfloor_resp_le.
    apply Qmult_le_0_compat; [done | by apply Qlt_le_weak]. }
  assert (Qfloor (u * K) < Z.of_nat k)%Z; [|lia].
  rewrite Zlt_Qlt. eapply Qle_lt_trans; [apply Qfloor_le|].
  fold K. rewrite <- (Qmult_1_l K) at 2. by apply Qmult_lt_compat_r.
Qed.

(** *** Rounding to binary64 *)

Lemma roundNE_err (y : Q) :
  (y - (1 # 2) <= inject_Z (roundNE y) <= y + (1 # 2))%Q.
Proof.
  unfold roundNE. pose proof (Qfloor_le y) as Hl. pose proof (Qlt_floor y) as Hu.
  rewrite inject_Z_plus in Hu. change (inject_Z 1) with 1%Q in Hu.
  destruct (Qcompare_spec (y - inject_Z (Qfloor y)) (1 # 2)) as [He|He|He].
  - destruct (Z.even (Qfloor y)); [|rewrite inject_Z_plus; change (inject_Z 1) with 1%Q];
      split; lra.
  - split; lra.
  - rewrite inject_Z_plus; change (inject_Z 1) with 1%Q. split; lra.
Qed.

Lemma pow2_pos (e : Z) : (0 < 2 ^ e)%Q.
Proof. by apply Qpower_0_lt. Qed.

Lemma pow2_Z (e : Z) : (0 <= e)%Z -> (2 ^ e == inject_Z (2 ^ e))%Q.
Proof. intros. by rewrite Zpower_Qpower. Qed.

Lemma log2_lower (x : Q) :
  (0 < x)%Q -> (2 ^ (Z.log2 (Qnum x) - Z.log2 (Z.pos (Qden x)) - 1) <= x)%Q.
Proof.
  intros Hx. destruct x as [n d]. cbn [Qnum Qden].
  assert (0 < n)%Z as Hn by (unfold Qlt in Hx; simpl in Hx; lia).
  replace (Z.log2 n - Z.log2 (Z.pos d) - 1)%Z
    with (Z.log2 n - (Z.log2 (Z.pos d) + 1))%Z by lia.
  rewrite Qpower_minus by done.
  pose proof (Z.log2_nonneg (Z.pos d)). pose proof (Z.log2_nonneg n).
  setoid_rewrite (pow2_Z (Z.log2 n)); [|lia].
  setoid_rewrite (pow2_Z (Z.log2 (Z.pos d) + 1)); [|lia].
  pose proof (Z.log2_spec n Hn) as [Hn1 _].
  pose proof (Z.log2_spec (Z.pos d) ltac:(lia)) as [_ Hd2].
  replace (Z.succ (Z.log2 (Z.pos d))) with (Z.log2 (Z.pos d) + 1)%Z in Hd2 by lia.
  set (A := (2 ^ Z.log2 n)%Z) in *. set (B := (2 ^ (Z.log2 (Z.pos d) + 1))%Z) in *.
  assert (0 < A)%Z by (subst A; apply Z.pow_pos_nonneg; [lia|apply Z.log2_nonneg]).
  apply Qle_shift_div_r.
  - change 0%Q with (inject_Z 0). rewrite <- Zlt_Qlt. lia.
  - unfold Qle, Qmult, inject_Z. simpl. nia.
Qed.

Lemma log2_upper (x : Q) :
  (0 < x)%Q -> (x < 2 ^ (Z.log2 (Qnum x) - Z.log2 (Z.pos (Qden x)) + 1))%Q.
Proof.
  intros Hx. destruct x as [n d]. cbn [Qnum Qden].
  assert (0 < n)%Z as Hn by (unfold Qlt in Hx; simpl in Hx; lia).
  replace (Z.log2 n - Z.log2 (Z.pos d) + 1)%Z
    with (Z.log2 n + 1 - Z.log2 (Z.pos d))%Z by lia.
  rewrite Qpower_minus by done.
  pose proof (Z.log2_nonneg (Z.pos d)). pose proof (Z.log2_nonneg n).
  setoid_rewrite (pow2_Z (Z.log2 n + 1)); [|lia].
  setoid_rewrite (pow2_Z (Z.log2 (Z.pos d))); [|lia].
  pose proof (Z.log2_spec n Hn) as [_ Hn2].
  pose proof (Z.log2_spec (Z.pos d) ltac:(lia)) as [Hd1 _].
  replace (Z.succ (Z.log2 n)) with (Z.log2 n + 1)%Z in Hn2 by lia.
  set (A := (2 ^ (Z.log2 n + 1))%Z) in *. set (B := (2 ^ (Z.log2 (Z.pos d)))%Z) in *.
  assert (0 < B)%Z by (subst B; apply Z.pow_pos_nonneg; [lia|apply Z.log2_nonneg]).
  apply Qlt_shift_div_l.
  - change 0%Q with (inject_Z 0). rewrite <- Zlt_Qlt. lia.
  - unfold Qlt, Qmult, inject_Z. simpl. nia.
Qed.

(** [ulpExp] is the exponent it is meant to be: the significand
    [x / 2^e] lies in [[2^52, 2^53)]. *)
Lemma ulpExp_spec (x : Q) :
  (0 < x)%Q ->
  (2 ^ (ulpExp x + 52) <= x)%Q /\ (x < 2 ^ (ulpExp x + 53))%Q.
Proof.
  intros Hx. unfold ulpExp.
  set (k := (Z.log2 (Qnum x) - Z.log2 (Z.pos (Qden x)))%Z).
  destruct (Qle_bool (2 ^ k) x) eqn:Hk.
  - replace (k - 52 + 52)%Z with k by lia. replace (k - 52 + 53)%Z with (k + 1)%Z by lia.
    split; [by apply Qle_bool_iff | by apply log2_upper].
  - replace (k - 53 + 52)%Z with (k - 1)%Z by lia. replace (k - 53 + 53)%Z with k by lia.
    split; [by apply log2_lower|].
    apply Qnot_le_lt. intros Hle. apply Qle_bool_iff in Hle. congruence.
Qed.

(** One rounding changes a value by at most its share [eps]. *)
Lemma round64_err (x : Q) :
  (0 <= x)%Q -> (x * (1 - eps) <= round64 x <= x * (1 + eps))%Q.
Proof.
  intros Hx. unfold round64. destruct (Qle_bool x 0) eqn:H0.
  - apply Qle_bool_iff in H0. unfold eps. split; nra.
  - assert (0 < x)%Q as Hpos.
    { apply Qnot_le_lt. intros Hle. apply Qle_bool_iff in Hle. congruence. }
    destruct (ulpExp_spec x Hpos) as [Hlo _].
    rewrite Qpower_plus in Hlo by done.
    pose proof (pow2_pos (ulpExp x)) as HP.
    set (P := (2 ^ ulpExp x)%Q) in *.
    pose proof (roundNE_err (x / P)) as [H1 H2].
    set (m := inject_Z (roundNE (x / P))) in *.
    assert (x / P * P == x)%Q as Hy by (field; lra).
    set (y := (x / P)%Q) in *.
    change (2 ^ 52)%Q with (4503599627370496 # 1)%Q in Hlo.
    unfold eps. split; nra.
Qed.

Lemma d03_value : (d03 == 5404319552844595 # 18014398509481984)%Q.
Proof. by vm_compute. Qed.

Lemma d02_value : (d02 == 3602879701896397 # 18014398509481984)%Q.
Proof. by vm_compute. Qed.

(** At the largest draw the sum [0.3 + u * 0.2] rounds to 0.5. *)
Lemma share_lastDraw : (round64 (d03 + round64 (lastDraw * d02)) == 1 # 2)%Q.
Proof. by vm_compute. Qed.

(** *** The share of cells kept *)

(** The share [0.3 + u * 0.2], as computed, lies between 0.3 and 0.5 up
    to 2^-52. *)
Lemma share_bounds (u : Q) :
  unitDraw u ->
  ((3 # 10) - (1 # 4503599627370496) <= round64 (d03 + round64 (u * d02))
     <= (1 # 2) + (1 # 4503599627370496))%Q.
Proof.
  intros [H0 H1]. pose proof d03_value as H3. pose proof d02_value as H2.
  assert (u * d02 == u * (3602879701896397 # 18014398509481984))%Q as Ht
    by (by rewrite H2).
  set (t := (u * d02)%Q) in *.
  assert (0 <= t)%Q as Hud by lra.
  pose proof (round64_err _ Hud) as [Ha1 Ha2].
  set (a := round64 t) in *.
  assert (0 <= d03 + a)%Q as Hs by (unfold eps in *; lra).
  pose proof (round64_err _ Hs) as [Hs1 Hs2].
  set (s := round64 (d03 + a)) in *.
  unfold eps in *. split; lra.
Qed.

(** The number of cells kept, [k], of the [n = size * size] cells:
    at most [n * (1/2 + 2^-49)] and more than [n * (3/10 - 2^-48) - 1]. *)
Lemma cellsToKeep_bounds (size : nat) (u : Q) :
  unitDraw u ->
  (2 ^ 51 * Z.of_nat (cellsToKeep size u) <= (2 ^ 50 + 4) * Z.of_nat (size * size))%Z /\
  ((3 * 2 ^ 50 - 40) * Z.of_nat (size * size)
     < 10 * 2 ^ 50 * (Z.of_nat (cellsToKeep size u) + 1))%Z.
Proof.
  intros Hu. unfold cellsToKeep.
  pose proof (share_bounds u Hu) as [Hs1 Hs2].
  set (s := round64 (d03 + round64 (u * d02))) in *.
  set (n := Z.of_nat (size * size)).
  assert (0 <= inject_Z n)%Q as Hn.
  { change 0%Q with (inject_Z 0). rewrite <- Zle_Qle. lia. }
  pose proof (round64_err _ Hn) as [Hm1 Hm2].
  set (M := round64 (inject_Z n)) in *.
  assert (0 <= M)%Q as HM0 by (unfold eps in *; lra).
  assert (M * ((3 # 10) - (1 # 4503599627370496)) <= M * s)%Q as Hq1.
  { rewrite !(Qmult_comm M). apply Qmult_le_compat_r; lra. }
  assert (M * s <= M * ((1 # 2) + (1 # 4503599627370496)))%Q as Hq2.
  { rewrite !(Qmult_comm M). apply Qmult_le_compat_r; lra. }
  set (q := (M * s)%Q) in *.
  assert (0 <= q)%Q as Hp by (unfold eps in *; lra).
  pose proof (round64_err _ Hp) as [Hp1 Hp2].
  set (p := round64 q) in *.
  assert (0 <= p)%Q as Hp0 by (unfold eps in *; lra).
  pose proof (Qfloor_le p) as Hf1. pose proof (Qlt_floor p) as Hf2.
  assert (0 <= Qfloor p)%Z as Hf0.
  { change 0%Z with (Qfloor 0). by apply Qfloor_resp_le. }
  rewrite Z2Nat.id by done.
  set (k := Qfloor p) in *.
  assert (inject_Z k * inject_Z 2251799813685248
          <= inject_Z n * inject_Z 1125899906842628)%Q as HA.
  { unfold eps, inject_Z in *. lra. }
  assert (inject_Z n * inject_Z 3377699720527832
          < inject_Z (k + 1) * inject_Z 11258999068426240)%Q as HB.
  { unfold eps, inject_Z in *. lra. }
  rewrite <- !inject_Z_mult in HA, HB.
  rewrite <- Zle_Qle in HA. rewrite <- Zlt_Qlt in HB. lia.
Qed.

(** No more cells are kept than there are. *)
Lemma cellsToKeep_le (size : nat) (u : Q) :
  unitDraw u -> cellsToKeep size u <= size * size.
Proof. intros Hu. pose proof (cellsToKeep_bounds size u Hu). lia. Qed.

(** On a grid of fewer than 2^44 cells, at most half of the cells are
    kept, and at least three tenths less one. *)
Lemma cellsToKeep_half (size : nat) (u : Q) :
  unitDraw u -> (Z.of_nat (size * size) < 2 ^ 44)%Z ->
  2 * cellsToKeep size u <= size * size /\
  3 * (size * size) <= 10 * (cellsToKeep size u + 1).
Proof. intros Hu Hn. pose proof (cellsToKeep_bounds size u Hu). lia. Qed.

(** From a side of 9 on, more cells are emptied than the [bs] boxes that
    the seeding fills hold. *)
Lemma cellsToKeep_removes (bs : nat) (u : Q) :
  unitDraw u -> 3 <= bs ->
  bs * (bs * bs) < bs * bs * (bs * bs) - cellsToKeep (bs * bs) u.
Proof.
  intros Hu Hbs. pose proof (cellsToKeep_bounds (bs * bs) u Hu) as [H _].
  set (t := bs * (bs * bs)).
  assert (3 * t <= bs * bs * (bs * bs)) by (unfold t; nia).
  assert (0 < t) by (unfold t; nia). lia.
Qed.
End Random.

(** ** Counting filled cells *)

Section Counting.
Implicit Types (b : board) (l : list Z) (r c : nat) (v w : Z).

Let nz (v : Z) : nat := if decide (v = 0%Z) then 0 else 1.

Lemma filled_row_insert l c v w :
  l !! c = Some w ->
  length (filter (fun x => x <> 0%Z) (<[c := v]> l)) + nz w =
  length (filter (fun x => x <> 0%Z) l) + nz v.
Proof.
  intros Hc. pose proof (lookup_lt_Some _ _ _ Hc) as Hlt.
  pose proof (take_drop_middle l c w Hc) as Hm.
  rewrite insert_take_drop by done.
  set (front := take c l) in *. set (back := drop (S c) l) in *.
  rewrite <- Hm.
  rewrite !filter_app, !filter_cons, !length_app. unfold nz.
  repeat case_decide; simpl; lia.
Qed.

Lemma filledCells_setCell b r c v w :
  cell b r c = Some w ->
  filledCells (setCell b r c v) + nz w = filledCells b + nz v.
Proof.
  unfold cell, setCell, filledCells.
  destruct (b !! r) as [l|] eqn:Hl; [|discriminate]. intros Hc.
  pose proof (lookup_lt_Some _ _ _ Hl) as Hlt.
  pose proof (take_drop_middle b r l Hl) as Hm.
  assert (length (take r b) = r) as Hr by (rewrite length_take; lia).
  set (front := take r b) in *. set (back := drop (S r) b) in *.
  rewrite <- Hm.
  rewrite alter_app_r_alt, Hr, Nat.sub_diag by lia; simpl.
  rewrite !concat_app; simpl. rewrite !filter_app, !length_app.
  pose proof (filled_row_insert l c v w Hc). lia.
Qed.

Lemma setCell_absent b r c v : cell b r c = None -> setCell b r c v = b.
Proof.
  unfold cell, setCell. intros H. apply list_eq. intros i.
  rewrite list_lookup_alter. destruct (decide (r = i)) as [->|]; [|done].
  destruct (b !! i) as [l|]; simpl; [|done].
  apply lookup_ge_None in H. by rewrite list_insert_ge.
Qed.

Lemma filledCells_setCell_le b r c v :
  filledCells (setCell b r c v) <= S (filledCells b).
Proof.
  destruct (cell b r c) as [w|] eqn:Hc.
  - pose proof (filledCells_setCell b r c v w Hc). unfold nz in *.
    repeat case_decide; lia.
  - rewrite setCell_absent by done. lia.
Qed.

Lemma filledCells_clear b r c w :
  cell b r c = Some w -> w <> 0%Z ->
  S (filledCells (setCell b r c 0)) = filledCells b.
Proof.
  intros Hc Hw. pose proof (filledCells_setCell b r c 0 w Hc). unfold nz in *.
  rewrite decide_False, decide_True in H by done. lia.
Qed.

Lemma filter_none {A} (P : A -> Prop) `{!forall x, Decision (P x)} (xs : list A) :
  Forall (fun x => ~ P x) xs -> filter P xs = [].
Proof.
  induction 1 as [|x xs Hx _ IH]; [done|].
  by rewrite filter_cons, decide_False.
Qed.

Lemma filter_all {A} (P : A -> Prop) `{!forall x, Decision (P x)} (xs : list A) :
  Forall P xs -> filter P xs = xs.
Proof.
  induction 1 as [|x xs Hx _ IH]; [done|].
  by rewrite filter_cons, decide_True, IH.
Qed.

Lemma filledCells_replicate_zero n m :
  filledCells (replicate n (replicate m 0%Z)) = 0.
Proof.
  unfold filledCells. rewrite filter_none; [done|].
  apply Forall_forall. intros x Hx.
  apply list_elem_of_In, in_concat in Hx as (l & Hl & Hx).
  apply list_elem_of_In, elem_of_replicate in Hl as [-> _].
  apply list_elem_of_In, elem_of_replicate in Hx as [-> _]. auto.
Qed.

Lemma length_concat_square b n :
  Forall (fun l => length l = n) b -> length (concat b) = length b * n.
Proof.
  induction 1 as [|l b Hl _ IH]; simpl; [done|].
  rewrite length_app, IH, Hl. lia.
Qed.

(** A board without an empty cell has all its cells filled. *)
Lemma filledCells_zero_cell b r c v :
  filledCells b = 0 -> cell b r c = Some v -> v = 0%Z.
Proof.
  unfold filledCells, cell. intros Hz Hv.
  destruct (b !! r) as [l|] eqn:Hl; [|done].
  apply length_zero_iff_nil in Hz.
  destruct (decide (v = 0%Z)) as [|Hne]; [done|]. exfalso.
  assert (v ∈ filter (fun v => v <> 0%Z) (concat b)) as Hin.
  { apply list_elem_of_filter. split; [done|].
    apply list_elem_of_In, in_concat. exists l.
    split; apply list_elem_of_In; by eapply list_elem_of_lookup_2. }
  rewrite Hz in Hin. by apply not_elem_of_nil in Hin.
Qed.

Lemma filledCells_full b :
  square b -> firstEmpty b = None -> filledCells b = length b * length b.
Proof.
  intros Hsq Hfull. unfold filledCells.
  rewrite <- (length_concat_square b (length b) Hsq). f_equal.
  apply filter_all, Forall_forall. intros x Hx.
  apply list_elem_of_In, in_concat in Hx as (l & Hl & Hx).
  apply list_elem_of_In, list_elem_of_lookup in Hl as [r Hr].
  apply list_elem_of_In, list_elem_of_lookup in Hx as [c Hc].
  assert (cell b r c = Some x) as Hcell by (unfold cell; by rewrite Hr).
  destruct (square_cell_lt _ _ _ _ Hsq Hcell).
  rewrite firstEmpty_None in Hfull. intros ->. by apply (Hfull r c).
Qed.
End Counting.

(** ** Boards without conflicts *)

Section Conflicts.
Variable bs : nat.
Implicit Types (b : board) (row col : nat) (p q : nat * nat).

(** A placement that isSafe accepts adds no conflict. *)
Lemma conflictFree_place b row col num :
  square b -> length b = bs * bs -> row < length b -> col < length b ->
  conflictFree b -> isSafe b row col num = true ->
  conflictFree (setCell b row col num).
Proof.
  intros Hsq Hn Hrow Hcol Hcf Hsafe.
  rewrite (isSafe_related b bs) in Hsafe by done.
  assert (Nat.sqrt (length b) = bs) as Hbs by (rewrite Hn; apply Nat.sqrt_square).
  intros [r1 c1] [r2 c2] v; simpl. rewrite length_setCell, Hbs.
  rewrite !cell_setCell. intros H1 H2 Hv Hne Hrel.
  destruct (decide (row = r1 /\ col = c1 /\ is_Some (cell b row col))) as [D1|D1];
    destruct (decide (row = r2 /\ col = c2 /\ is_Some (cell b row col))) as [D2|D2].
  - destruct D1 as (<- & <- & _), D2 as (<- & <- & _). done.
  - destruct D1 as (<- & <- & _). injection H1 as <-.
    destruct (square_cell_lt _ _ _ _ Hsq H2).
    by apply (Hsafe r2 c2).
  - destruct D2 as (<- & <- & _). injection H2 as <-.
    destruct (square_cell_lt _ _ _ _ Hsq H1).
    apply (Hsafe r1 c1); [done | done | by apply related_sym | done].
  - apply (Hcf (r1, c1) (r2, c2) v); try done. by rewrite Hbs.
Qed.

(** Clearing a cell adds no conflict. *)
Lemma conflictFree_clear b row col :
  conflictFree b -> conflictFree (setCell b row col 0).
Proof.
  intros Hcf [r1 c1] [r2 c2] v; simpl. rewrite length_setCell.
  rewrite !cell_setCell. intros H1 H2 Hv Hne.
  destruct (decide (row = r1 /\ _)); [congruence|].
  destruct (decide (row = r2 /\ _)); [congruence|].
  by apply (Hcf (r1, c1) (r2, c2) v).
Qed.

(** The search keeps the shape of the board and adds no conflict. *)
Lemma solve_conflictFree fuel b s ok b' s' :
  length b = bs * bs -> square b -> conflictFree b ->
  solve fuel (b, s) = Some (ok, (b', s')) ->
  length b' = bs * bs /\ square b' /\ conflictFree b'.
Proof.
  intros Hn Hsq Hcf H.
  apply (solve_ind (fun b _ b' =>
           length b = bs * bs -> square b -> conflictFree b ->
           length b' = bs * bs /\ square b' /\ conflictFree b')) in H;
    [by apply H | auto | auto |].
  clear. intros b row col num b' Hfe _ Hsafe IH Hn Hsq Hcf.
  apply firstEmpty_Some in Hfe as (_ & Hrow & Hcol).
  apply IH.
  - by rewrite length_setCell.
  - by apply square_setCell.
  - by apply conflictFree_place.
Qed.
End Conflicts.

(** ** Seeding the diagonal boxes *)

Section FillCells.
Variables (row col : nat) (numbers : list Z).
Implicit Types (g : board) (ps : list (nat * nat)) (p : nat * nat).

Let fill ps g k0 := fold_left (fillCell row col numbers) ps (g, k0).

Lemma fill_cons p ps g k0 :
  fill (p :: ps) g k0 =
  fill ps (fillCell row col numbers (g, k0) p).1 (S k0).
Proof. unfold fill, fillCell; simpl. by destruct (numbers !! k0). Qed.

Lemma fillCell_length g k0 p :
  length (fillCell row col numbers (g, k0) p).1 = length g.
Proof.
  unfold fillCell; simpl. destruct (numbers !! k0); simpl; [|done].
  apply length_setCell.
Qed.

Lemma fillCell_square g k0 p :
  square g -> square (fillCell row col numbers (g, k0) p).1.
Proof.
  unfold fillCell; simpl. destruct (numbers !! k0); simpl; [|done].
  apply square_setCell.
Qed.

Lemma fillCell_filled g k0 p :
  filledCells (fillCell row col numbers (g, k0) p).1 <= S (filledCells g).
Proof.
  unfold fillCell; simpl. destruct (numbers !! k0); simpl; [|lia].
  apply filledCells_setCell_le.
Qed.

Lemma fill_shape ps g k0 :
  length (fill ps g k0).1 = length g /\
  (square g -> square (fill ps g k0).1) /\
  filledCells (fill ps g k0).1 <= filledCells g + length ps.
Proof.
  revert g k0. induction ps as [|p ps IH]; intros g k0.
  { simpl. split; [done|]. split; [done|lia]. }
  rewrite fill_cons.
  destruct (IH (fillCell row col numbers (g, k0) p).1 (S k0)) as (H1 & H2 & H3).
  rewrite fillCell_length in H1.
  pose proof (fillCell_filled g k0 p).
  split; [done|]. split; [|simpl; lia].
  intros Hsq. by apply H2, fillCell_square.
Qed.

(** The cells that are no target keep their value. *)
Lemma fill_other ps g k0 r c :
  (forall p, In p ps -> (r, c) <> (row + p.1, col + p.2)) ->
  cell (fill ps g k0).1 r c = cell g r c.
Proof.
  revert g k0. induction ps as [|p ps IH]; intros g k0 Hnot; [done|].
  rewrite fill_cons, IH by (intros; apply Hnot; by right).
  unfold fillCell; simpl. destruct (numbers !! k0); simpl; [|done].
  rewrite cell_setCell_ne; [done|].
  intros E. by apply (Hnot p); [left | rewrite E].
Qed.

(** The [k]-th target receives [numbers[k0 + k]]. *)
Lemma fill_target ps g k0 k p :
  NoDup ps -> ps !! k = Some p ->
  is_Some (cell g (row + p.1) (col + p.2)) ->
  k0 + length ps <= length numbers ->
  cell (fill ps g k0).1 (row + p.1) (col + p.2) = numbers !! (k0 + k).
Proof.
  revert g k0 k. induction ps as [|p0 ps IH]; intros g k0 k Hnd Hk Hcell Hlen;
    [done|].
  apply NoDup_cons in Hnd as [Hp0 Hnd]. simpl in Hlen.
  rewrite fill_cons. unfold fillCell; simpl.
  destruct (lookup_lt_is_Some_2 numbers k0 ltac:(lia)) as [v Hv].
  rewrite Hv; simpl. destruct k as [|k]; simpl in Hk.
  - injection Hk as ->. rewrite fill_other.
    + rewrite Nat.add_0_r, Hv. destruct Hcell as [w Hw].
      by apply (cell_setCell_eq _ _ _ _ w).
    + intros q Hq E. apply Hp0. apply list_elem_of_In.
      assert (p = q) as ->; [|done].
      destruct p, q; simpl in *. injection E as E1 E2. f_equal; lia.
  - rewrite (IH _ (S k0) k); [f_equal; lia | done | done | | lia].
    rewrite cell_setCell. case_decide; eauto.
Qed.
End FillCells.

Section Seeding.
Variable bs : nat.
Hypothesis bs_pos : 0 < bs.
Implicit Types (g : board) (numbers : list Z).

Lemma swap_perm numbers i j : swap numbers i j ≡ₚ numbers.
Proof.
  unfold swap. destruct (numbers !! i) eqn:Hi; [|done].
  destruct (numbers !! j) eqn:Hj; [|done].
  by apply Permutation_insert_swap.
Qed.

(** The shuffle permutes its array, whatever the draws. *)
Lemma shuffle_perm i numbers rs numbers' rs' :
  shuffle i numbers rs = Some (numbers', rs') -> numbers' ≡ₚ numbers.
Proof.
  revert numbers rs. induction i as [|i IH]; intros numbers rs; simpl.
  - by intros [= <- <-].
  - intros H. apply rand_bind_Some in H as (j & rs1 & _ & H).
    apply IH in H. by rewrite H, swap_perm.
Qed.

Lemma NoDup_list_prod {A B} (xs : list A) (ks : list B) :
  NoDup xs -> NoDup ks -> NoDup (list_prod xs ks).
Proof.
  intros Hxs Hks. induction Hxs as [|x xs Hx Hxs IH]; simpl; [constructor|].
  apply NoDup_app. split; [|split].
  - apply (NoDup_fmap_2 (pair x)); first [done | by intros ?? [=]].
  - intros [a c] Ha Hin. apply list_elem_of_fmap in Ha as (y & [= -> ->] & _).
    apply list_elem_of_In, in_prod_iff in Hin as [Hin _].
    by apply Hx, list_elem_of_In.
  - done.
Qed.

Lemma NoDup_cells n : NoDup (cells n).
Proof. apply NoDup_list_prod; apply NoDup_seq. Qed.

(** The values written into a box: 1..N in some order. *)
Lemma shuffled_numbers rs numbers rs' :
  shuffle (bs * bs - 1) (Z.of_nat <$> seq 1 (bs * bs)) rs = Some (numbers, rs') ->
  NoDup numbers /\ Forall (fun v => v <> 0%Z) numbers /\
  length numbers = bs * bs.
Proof.
  intros H. apply shuffle_perm in H. rewrite H. split; [|split].
  - apply NoDup_fmap_2; [apply Nat2Z.inj' | apply NoDup_seq].
  - apply Forall_fmap, Forall_forall. intros x Hx.
    apply elem_of_seq in Hx. simpl. lia.
  - by rewrite length_fmap, length_seq.
Qed.

Lemma box_of_target k a : a < bs -> (k * bs + a) / bs = k.
Proof.
  intros Ha. rewrite Nat.add_comm, Nat.div_add by lia.
  rewrite Nat.div_small by done. done.
Qed.

Lemma target_of_box k r : r / bs = k -> r = k * bs + r mod bs.
Proof. intros <-. pose proof (Nat.div_mod_eq r bs). lia. Qed.

(** Filling the diagonal box [k] keeps the invariant of the loop. *)
Lemma fillBox_diag k g rs g' rs' :
  length g = bs * bs -> square g -> diagonalFilled bs k g -> k < bs ->
  fillBox g (k * bs) (k * bs) (bs * bs) rs = Some (g', rs') ->
  length g' = bs * bs /\ square g' /\ diagonalFilled bs (S k) g' /\
  filledCells g' <= filledCells g + bs * bs.
Proof.
  intros Hn Hsq [Hdiag Hinj] Hk H. unfold fillBox in H.
  apply rand_bind_Some in H as (numbers & rs1 & Hsh & H).
  injection H as <- <-. rewrite Nat.sqrt_square.
  apply shuffled_numbers in Hsh as (Hnd & Hnz & Hlen).
  set (ps := cells bs).
  destruct (fill_shape (k * bs) (k * bs) numbers ps g 0) as (L1 & L2 & L3).
  assert (length ps = bs * bs) as Hps.
  { unfold ps, cells. by rewrite length_prod, length_seq. }
  rewrite Hps in L3. split; [congruence|]. split; [auto|]. split; [|done].
  set (g' := (fold_left _ _ _).1) in *.
  (* the cells of the box *)
  assert (forall i a c, ps !! i = Some (a, c) ->
            cell g' (k * bs + a) (k * bs + c) = numbers !! i) as Hin.
  { intros i a c Hi.
    assert (a < bs /\ c < bs) as [Ha Hc].
    { apply in_cells. apply list_elem_of_In. by eapply list_elem_of_lookup_2. }
    apply (fill_target (k * bs) (k * bs) numbers ps g 0 i (a, c));
      [apply NoDup_cells | done | | lia].
    simpl. apply square_cell; [done | nia | nia]. }
  (* the cells outside the box *)
  assert (forall r c, ~ (r / bs = k /\ c / bs = k) -> cell g' r c = cell g r c)
    as Hout.
  { intros r c Hrc. apply fill_other. intros [a c'] Hp E; simpl in E.
    apply in_cells in Hp as [Ha Hc]. injection E as -> ->.
    apply Hrc. split; by apply box_of_target. }
  (* a filled cell of the box has an index in numbers *)
  assert (forall r c, r / bs = k -> c / bs = k ->
            exists i, ps !! i = Some (r mod bs, c mod bs) /\
                      cell g' r c = numbers !! i) as Hbox.
  { intros r c Hr Hc.
    assert (In (r mod bs, c mod bs) ps) as Hp.
    { apply in_cells. split; apply Nat.mod_upper_bound; lia. }
    apply list_elem_of_In, list_elem_of_lookup in Hp as [i Hi].
    exists i. split; [done|]. rewrite <- (Hin i _ _ Hi).
    by rewrite <- !target_of_box. }
  split.
  - intros r c v Hv Hvz.
    destruct (decide (r / bs = k /\ c / bs = k)) as [[Hr Hc]|Hrc]; [lia|].
    rewrite Hout in Hv by done.
    destruct (Hdiag r c v Hv Hvz). lia.
  - assert (forall r c v, cell g' r c = Some v -> v <> 0%Z -> r / bs = c / bs)
      as Hd.
    { intros r c v Hv Hvz.
      destruct (decide (r / bs = k /\ c / bs = k)) as [[Hr Hc]|Hrc]; [lia|].
      rewrite Hout in Hv by done. by destruct (Hdiag r c v Hv Hvz). }
    intros [r1 c1] [r2 c2] v; simpl. intros H1 H2 Hvz Hband.
    pose proof (Hd _ _ _ H1 Hvz) as D1. pose proof (Hd _ _ _ H2 Hvz) as D2.
    destruct (decide (r1 / bs = k)) as [Hr1|Hr1].
    + destruct (Hbox r1 c1) as (i & Hi & Ei); [lia | lia |].
      destruct (Hbox r2 c2) as (j & Hj & Ej); [lia | lia |].
      rewrite H1 in Ei. rewrite H2 in Ej.
      assert (i = j) as -> by (by eapply NoDup_lookup).
      rewrite Hi in Hj. injection Hj as Er Ec.
      rewrite (target_of_box k r1), (target_of_box k r2) by lia.
      rewrite (target_of_box k c1), (target_of_box k c2) by lia.
      by rewrite Er, Ec.
    + rewrite Hout in H1 by lia. rewrite Hout in H2 by lia.
      by apply (Hinj (r1, c1) (r2, c2) v).
Qed.

(** The loop over the diagonal boxes, entered at the box [k]. *)
Lemma seedDiagonal_diag n k g rs g' rs' :
  length g = bs * bs -> square g -> diagonalFilled bs k g -> k <= bs ->
  seedDiagonal n (k * bs) (bs * bs) g rs = Some (g', rs') ->
  length g' = bs * bs /\ square g' /\
  (exists k', diagonalFilled bs k' g') /\
  filledCells g' <= filledCells g + (bs - k) * (bs * bs).
Proof.
  revert k g rs. induction n as [|n IH]; intros k g rs Hn Hsq Hd Hk; simpl.
  { intros [= <- <-]. repeat split; eauto. apply Nat.le_add_r. }
  destruct (k * bs <? bs * bs) eqn:Hlt.
  2:{ intros [= <- <-]. repeat split; eauto. apply Nat.le_add_r. }
  apply Nat.ltb_lt in Hlt. assert (k < bs) as Hk' by nia.
  intros H. apply rand_bind_Some in H as (g1 & rs1 & Hfill & H).
  apply (fillBox_diag k) in Hfill as (Hn1 & Hsq1 & Hd1 & Hc1); try done.
  rewrite Nat.sqrt_square in H.
  replace (k * bs + bs) with (S k * bs) in H by lia.
  apply (IH (S k) g1 rs1 Hn1 Hsq1 Hd1 ltac:(lia)) in H as (Hn2 & Hsq2 & Hd2 & Hc2).
  repeat split; try done. nia.
Qed.

Lemma diagonalFilled_conflictFree k g :
  length g = bs * bs -> diagonalFilled bs k g -> conflictFree g.
Proof.
  intros Hn [Hdiag Hinj] p q v Hp Hq Hv Hne Hrel.
  rewrite Hn, Nat.sqrt_square in Hrel. apply Hne.
  destruct (Hdiag _ _ _ Hp Hv) as [Dp _], (Hdiag _ _ _ Hq Hv) as [Dq _].
  apply (Hinj p q v); try done.
  destruct Hrel as [E | [E | [E _]]]; congruence.
Qed.

(** The grid handed to the solver: N x N, without a conflict, with at
    most [bs] boxes of N cells filled. *)
Lemma seedPuzzle_spec rs g rs' :
  seedPuzzle (bs * bs) rs = Some (g, rs') ->
  length g = bs * bs /\ square g /\ conflictFree g /\
  filledCells g <= bs * (bs * bs) /\ rs' `suffix_of` rs.
Proof.
  intros H. pose proof (consumes_seedDiagonal _ _ _ _ _ _ _ H) as Hsuf.
  unfold seedPuzzle in H.
  apply (seedDiagonal_diag _ 0) in H as (Hn & Hsq & [k Hd] & Hc).
  - rewrite filledCells_replicate_zero in Hc.
    repeat split; try done; [by eapply diagonalFilled_conflictFree | lia].
  - by rewrite length_replicate.
  - unfold square. rewrite length_replicate. apply Forall_replicate.
    by rewrite length_replicate.
  - split.
    + intros r c v Hv Hz. exfalso. unfold cell in Hv.
      destruct (replicate _ _ !! r) as [l|] eqn:Hl; [|done].
      apply lookup_replicate in Hl as [-> _].
      apply lookup_replicate in Hv as [-> _]. done.
    + intros p q v Hv _ Hz. exfalso. unfold cell in Hv.
      destruct (replicate _ _ !! p.1) as [l|] eqn:Hl; [|done].
      apply lookup_replicate in Hl as [-> _].
      apply lookup_replicate in Hv as [-> _]. done.
  - lia.
Qed.
End Seeding.

(** ** Removing cells and the generator as a whole *)

Section Generator.
Implicit Types (g b : board) (rs : list Q).

Lemma pickFilled_spec size g rs row col rs' :
  pickFilled size g rs = Some ((row, col), rs') ->
  cellIs g row col 0 = false /\ rs' `suffix_of` rs /\
  (Forall unitDraw rs -> 0 < size -> row < size /\ col < size).
Proof.
  remember (length rs) as n eqn:Hn. revert rs Hn rs'.
  induction n as [n IH] using lt_wf_ind. intros rs -> rs'.
  specialize (fun rs1 H => IH (length rs1) H rs1 eq_refl).
  destruct rs as [|u [|v rs1]]; simpl; [done | done |].
  destruct (cellIs g (floorTimes u size) (floorTimes v size) 0) eqn:Hc.
  - intros H. apply IH in H as (H1 & H2 & H3); [|simpl; lia].
    split; [done|]. split; [by do 2 apply suffix_cons_r|].
    intros Hu. do 2 apply Forall_cons in Hu as [_ Hu]. auto.
  - intros [= <- <- <-]. split; [done|].
    split; [by do 2 apply suffix_cons_r|].
    intros Hu Hs. apply Forall_cons in Hu as [Hu Hu'].
    apply Forall_cons in Hu' as [Hv _]. split; by apply floorTimes_lt.
Qed.

Lemma removeCells_inv n size g rs b rs' :
  removeCells (S n) size g rs = Some (b, rs') ->
  exists row col rs1,
    pickFilled size g rs = Some ((row, col), rs1) /\
    removeCells n size (setCell g row col 0) rs1 = Some (b, rs').
Proof.
  simpl. intros H. apply rand_bind_Some in H as ([row col] & rs1 & H1 & H2).
  eauto.
Qed.

(** Removing cells keeps the shape of the board and adds no conflict. *)
Lemma removeCells_conflictFree n size g rs b rs' :
  removeCells n size g rs = Some (b, rs') ->
  length b = length g /\ (square g -> square b) /\
  (conflictFree g -> conflictFree b).
Proof.
  revert g rs. induction n as [|n IH]; intros g rs.
  { by intros [= <- <-]. }
  intros H. apply removeCells_inv in H as (row & col & rs1 & _ & H).
  apply IH in H as (H1 & H2 & H3). rewrite length_setCell in H1.
  split; [done|]. split; intros ?.
  - by apply H2, square_setCell.
  - by apply H3, conflictFree_clear.
Qed.

(** Each turn of the removal loop empties one filled cell. *)
Lemma removeCells_count n g rs b rs' :
  square g -> 0 < length g -> Forall unitDraw rs ->
  removeCells n (length g) g rs = Some (b, rs') ->
  filledCells b + n = filledCells g.
Proof.
  revert g rs. induction n as [|n IH]; intros g rs Hsq Hpos Hrs.
  { intros [= <- <-]. lia. }
  intros H. apply removeCells_inv in H as (row & col & rs1 & Hp & H).
  apply pickFilled_spec in Hp as (Hc & Hsuf & Hlt).
  destruct (Hlt Hrs Hpos) as [Hrow Hcol].
  destruct (square_cell g row col Hsq Hrow Hcol) as [w Hw].
  assert (w <> 0%Z) as Hwz.
  { intros ->. apply cellIs_false in Hc. done. }
  rewrite <- (length_setCell g row col 0) in H.
  apply IH in H.
  - pose proof (filledCells_clear g row col w Hw Hwz). lia.
  - by apply square_setCell.
  - by rewrite length_setCell.
  - by eapply suffix_Forall.
Qed.

(** The steps of a run of the generator that returns. *)
Lemma generatePuzzle_inv size rs b rs' :
  generatePuzzle size rs = Some (b, rs') ->
  exists g0 rs0 res u rs1,
    seedPuzzle size rs = Some (g0, rs0) /\
    solveSudoku g0 = Some res /\
    rs0 = u :: rs1 /\
    removeCells (size * size - cellsToKeep size u) size (grid res) rs1
      = Some (b, rs').
Proof.
  unfold generatePuzzle. intros H.
  apply rand_bind_Some in H as (g0 & rs0 & Hseed & H).
  apply rand_bind_Some in H as (res & rs0' & Hsol & H).
  unfold liftOption in Hsol.
  destruct (solveSudoku g0) as [res'|] eqn:Hres; [|done].
  injection Hsol as <- <-.
  apply rand_bind_Some in H as (u & rs1 & Hu & H).
  destruct rs0 as [|u' rs1']; [done|]. injection Hu as <- <-.
  exists g0, (u' :: rs1'), res', u', rs1'. done.
Qed.

(** The board the generator returns is N x N and has no conflict. *)
Lemma generatePuzzle_conflictFree bs rs b rs' :
  0 < bs -> generatePuzzle (bs * bs) rs = Some (b, rs') ->
  length b = bs * bs /\ square b /\ conflictFree b.
Proof.
  intros Hbs H.
  apply generatePuzzle_inv in H as (g0 & rs0 & res & u & rs1 & Hseed & Hsol & _ & H).
  apply (seedPuzzle_spec bs Hbs) in Hseed as (Hn & Hsq & Hcf & _).
  apply solveSudoku_solve in Hsol.
  apply (solve_conflictFree bs) in Hsol as (Hn1 & Hsq1 & Hcf1); try done.
  apply removeCells_conflictFree in H as (H1 & H2 & H3).
  split; [congruence|]. auto.
Qed.

(** A run whose solver call fails goes on with the seeded grid, of which
    the removal loop wants to empty at least as many cells as are filled.
    From a side of 9 on it wants more and the run does not come back; on
    the 4 x 4 grid it comes back when the share kept is one half, with
    every cell emptied. *)
Lemma generatePuzzle_unsolved bs rs g rs0 res b rs' :
  2 <= bs -> Forall unitDraw rs ->
  seedPuzzle (bs * bs) rs = Some (g, rs0) ->
  solveSudoku g = Some res -> solved res = false ->
  generatePuzzle (bs * bs) rs = Some (b, rs') ->
  bs = 2 /\ filledCells b = 0.
Proof.
  intros Hbs Hrs Hseed Hsol Hok H.
  apply generatePuzzle_inv in H as (g0 & rs1 & res0 & u & rs2 & Hseed' & Hsol' & -> & H).
  rewrite Hseed in Hseed'. injection Hseed' as <- ->.
  rewrite Hsol in Hsol'. injection Hsol' as <-.
  apply (seedPuzzle_spec bs ltac:(lia)) in Hseed as (Hn & Hsq & Hcf & Hc & Hsuf).
  apply (suffix_Forall _ _ _ Hsuf) in Hrs. apply Forall_cons in Hrs as [Hu Hrs].
  apply solveSudoku_solve in Hsol. rewrite Hok in Hsol.
  apply solve_frame in Hsol as (_ & _ & Hsame). specialize (Hsame eq_refl).
  rewrite Hsame in H.
  assert (removeCells (bs * bs * (bs * bs) - cellsToKeep (bs * bs) u)
            (length g) g rs2 = Some (b, rs')) as H' by (by rewrite Hn).
  apply removeCells_count in H'; [|done|nia|done].
  destruct (decide (bs = 2)) as [->|Hne].
  - pose proof (cellsToKeep_half (2 * 2) u Hu ltac:(lia)) as [Hhalf _]. lia.
  - pose proof (cellsToKeep_removes bs u Hu ltac:(lia)). lia.
Qed.

(** The board the generator returns has [cellsToKeep] filled cells, when
    the solver has completed the seeded grid; from a side of 9 on, no
    other run comes back. *)
Lemma generatePuzzle_count bs rs b rs' :
  2 <= bs -> Forall unitDraw rs ->
  generatePuzzle (bs * bs) rs = Some (b, rs') ->
  3 <= bs \/ seedSolved (bs * bs) rs = true ->
  exists u, unitDraw u /\ filledCells b = cellsToKeep (bs * bs) u.
Proof.
  intros Hbs Hrs H Hsolved.
  pose proof H as H0.
  apply generatePuzzle_inv in H as (g0 & rs0 & res & u & rs1 & Hseed & Hsol & -> & H).
  destruct (solved res) eqn:Hok.
  - apply (seedPuzzle_spec bs ltac:(lia)) in Hseed as (Hn & Hsq & Hcf & Hc & Hsuf).
    apply (suffix_Forall _ _ _ Hsuf) in Hrs. apply Forall_cons in Hrs as [Hu Hrs].
    exists u. split; [done|].
    pose proof (cellsToKeep_le (bs * bs) u Hu) as Hkeep.
    apply solveSudoku_solve in Hsol.
    pose proof (solve_conflictFree bs _ _ _ _ _ _ Hn Hsq Hcf Hsol) as (Hn1 & Hsq1 & _).
    assert (removeCells (bs * bs * (bs * bs) - cellsToKeep (bs * bs) u)
              (length (grid res)) (grid res) rs1 = Some (b, rs')) as H'
      by (by rewrite Hn1).
    apply removeCells_count in H'; [|done|nia|done].
    rewrite Hok in Hsol.
    apply solve_full in Hsol. rewrite (filledCells_full _ Hsq1 Hsol) in H'.
    rewrite Hn1 in H'. lia.
  - exfalso.
    destruct (generatePuzzle_unsolved bs _ _ _ _ _ _ Hbs Hrs Hseed Hsol Hok H0)
      as [-> _].
    destruct Hsolved as [?|Hs]; [lia|].
    unfold seedSolved in Hs. rewrite Hseed, Hsol in Hs. congruence.
Qed.
End Generator.

(** ** Completed boards *)

Section Completed.
Variable bs : nat.
Hypothesis bs_pos : 0 < bs.
Implicit Types (b g : board) (ps : list (nat * nat)).

Lemma inRange_setCell b row col v :
  inRange b -> (0 <= v <= Z.of_nat (length b))%Z ->
  inRange (setCell b row col v).
Proof.
  intros Hb Hv r c w. rewrite length_setCell, cell_setCell.
  case_decide; [by intros [= <-] | apply Hb].
Qed.

Lemma fill_inRange row col numbers ps g k0 :
  Forall (fun v => 0 <= v <= Z.of_nat (length g))%Z numbers -> inRange g ->
  inRange (fold_left (fillCell row col numbers) ps (g, k0)).1.
Proof.
  intros Hnum. revert g k0 Hnum.
  induction ps as [|p ps IH]; intros g k0 Hnum Hg; [done|].
  simpl. unfold fillCell at 2; simpl.
  destruct (numbers !! k0) as [v|] eqn:Hv; [|by apply IH].
  apply IH.
  - by rewrite length_setCell.
  - apply inRange_setCell; [done|].
    rewrite Forall_lookup in Hnum. by apply (Hnum k0).
Qed.

Lemma seedDiagonal_inRange n i g rs g' rs' :
  length g = bs * bs -> inRange g ->
  seedDiagonal n i (bs * bs) g rs = Some (g', rs') ->
  inRange g'.
Proof.
  revert i g rs. induction n as [|n IH]; intros i g rs Hn Hg; simpl.
  { by intros [= <- <-]. }
  destruct (i <? bs * bs); [|by intros [= <- <-]].
  intros H. apply rand_bind_Some in H as (g1 & rs1 & Hfill & H).
  unfold fillBox in Hfill.
  apply rand_bind_Some in Hfill as (numbers & rs2 & Hsh & Hfill).
  injection Hfill as <- <-.
  pose proof (shuffle_perm _ _ _ _ _ Hsh) as Hperm.
  eapply IH; [| |exact H].
  - by destruct (fill_shape i i numbers (cells (Nat.sqrt (bs * bs))) g 0) as [-> _].
  - apply fill_inRange; [|done]. rewrite Hperm, Hn.
    apply Forall_fmap, Forall_forall. intros x Hx.
    apply elem_of_seq in Hx. simpl. lia.
Qed.

Lemma solve_inRange fuel b s ok b' s' :
  inRange b -> solve fuel (b, s) = Some (ok, (b', s')) -> inRange b'.
Proof.
  intros Hb H.
  apply (solve_ind (fun b _ b' => inRange b -> inRange b')) in H;
    [by apply H | auto | auto |].
  clear. intros b row col num b' _ Hnum _ IH Hb.
  apply IH, inRange_setCell; [done | lia].
Qed.

(** The values of a region whose cells constrain each other, on a full
    board without conflicts: each of 1..N once. *)
Lemma region_values b ps :
  square b -> length b = bs * bs -> conflictFree b -> inRange b ->
  firstEmpty b = None ->
  NoDup ps -> length ps = bs * bs ->
  (forall p, p ∈ ps -> p.1 < bs * bs /\ p.2 < bs * bs) ->
  (forall p q, p ∈ ps -> q ∈ ps -> related bs p q) ->
  valuesAt b ps ≡ₚ oneToN (bs * bs).
Proof.
  intros Hsq Hn Hcf Hrange Hfull Hnd Hlen Hin Hrel.
  rewrite firstEmpty_None in Hfull.
  assert (forall i p, ps !! i = Some p ->
            exists v, cell b p.1 p.2 = Some v /\ valuesAt b ps !! i = Some v /\
                      (1 <= v <= Z.of_nat (bs * bs))%Z) as Hval.
  { intros i p Hi.
    assert (p ∈ ps) as Hp by (by eapply list_elem_of_lookup_2).
    destruct (Hin p Hp) as [Hr Hc]. rewrite <- Hn in Hr, Hc.
    destruct (square_cell b _ _ Hsq Hr Hc) as [v Hv]. exists v.
    split; [done|]. split.
    - clear -Hi Hv Hin Hsq Hn. revert i Hi Hin.
      induction ps as [|q ps IH]; intros i Hi Hin; [done|].
      unfold valuesAt in *. simpl.
      destruct (Hin q ltac:(left)) as [Hr Hc]. rewrite <- Hn in Hr, Hc.
      destruct (square_cell b _ _ Hsq Hr Hc) as [w Hw]. rewrite Hw. simpl.
      destruct i as [|i]; simpl in *.
      + injection Hi as ->. congruence.
      + apply IH; [done|]. intros p' Hp'. apply Hin. by right.
    - pose proof (Hrange _ _ _ Hv) as Hv'. pose proof (Hfull _ _ Hr Hc) as Hz.
      rewrite Hn in Hv'. assert (v <> 0%Z) by congruence. lia. }
  assert (length (valuesAt b ps) = bs * bs) as Hvlen.
  { rewrite <- Hlen. clear -Hin Hsq Hn. induction ps as [|q ps IH]; [done|].
    unfold valuesAt in *. simpl.
    destruct (Hin q ltac:(left)) as [Hr Hc]. rewrite <- Hn in Hr, Hc.
    destruct (square_cell b _ _ Hsq Hr Hc) as [w Hw]. rewrite Hw. simpl.
    f_equal. apply IH. intros p' Hp'. apply Hin. by right. }
  apply NoDup_Permutation_bis.
  - apply NoDup_ListNoDup, NoDup_alt. intros i j x Hi Hj.
    destruct (lookup_lt_is_Some_2 ps i) as [p Hp].
    { rewrite Hlen, <- Hvlen. by eapply lookup_lt_Some. }
    destruct (lookup_lt_is_Some_2 ps j) as [q Hq].
    { rewrite Hlen, <- Hvlen. by eapply lookup_lt_Some. }
    destruct (Hval i p Hp) as (v & Hv & Hvi & Hv1).
    destruct (Hval j q Hq) as (w & Hw & Hwj & Hw1).
    assert (v = x) as -> by congruence. assert (w = x) as -> by congruence.
    destruct (decide (p = q)) as [->|Hne]; [by eapply NoDup_lookup|].
    exfalso. apply (Hcf p q x Hv Hw); [lia | done |].
    rewrite Hn, Nat.sqrt_square.
    apply Hrel; by eapply list_elem_of_lookup_2.
  - unfold oneToN. rewrite length_fmap, length_seq. lia.
  - intros x Hx. apply list_elem_of_In, list_elem_of_lookup in Hx as [i Hi].
    destruct (lookup_lt_is_Some_2 ps i) as [p Hp].
    { rewrite Hlen, <- Hvlen. by eapply lookup_lt_Some. }
    destruct (Hval i p Hp) as (v & _ & Hvi & Hv1).
    assert (v = x) as -> by congruence.
    apply list_elem_of_In. unfold oneToN. apply list_elem_of_fmap.
    exists (Z.to_nat x). split; [lia|]. apply elem_of_seq. lia.
Qed.

(** A full board without conflicts is a solved sudoku. *)
Lemma full_conflictFree_isSudoku b :
  square b -> length b = bs * bs -> conflictFree b -> inRange b ->
  firstEmpty b = None -> isSudoku bs b.
Proof.
  intros Hsq Hn Hcf Hrange Hfull. split; [|split].
  - intros i Hi. apply region_values; try done.
    + apply (NoDup_fmap_2 (pair i)); first [apply NoDup_seq | by intros ?? [=]].
    + unfold rowCells. by rewrite length_fmap, length_seq.
    + intros p Hp. apply list_elem_of_fmap in Hp as (c & -> & Hc).
      apply elem_of_seq in Hc. simpl. lia.
    + intros p q Hp Hq. apply list_elem_of_fmap in Hp as (c & -> & _).
      apply list_elem_of_fmap in Hq as (c' & -> & _). by left.
  - intros i Hi. apply region_values; try done.
    + apply (NoDup_fmap_2 (fun r => (r, i))); first [apply NoDup_seq | by intros ?? [=]].
    + unfold colCells. by rewrite length_fmap, length_seq.
    + intros p Hp. apply list_elem_of_fmap in Hp as (c & -> & Hc).
      apply elem_of_seq in Hc. simpl. lia.
    + intros p q Hp Hq. apply list_elem_of_fmap in Hp as (c & -> & _).
      apply list_elem_of_fmap in Hq as (c' & -> & _). right. by left.
  - intros k l Hk Hl. apply region_values; try done.
    + apply NoDup_fmap_2; [|apply NoDup_cells].
      intros [a c] [a' c']; simpl. intros [= Ha Hc]. f_equal; lia.
    + unfold boxCells, cells. by rewrite length_fmap, length_prod, length_seq.
    + intros p Hp. apply list_elem_of_fmap in Hp as ([a c] & -> & Hc).
      apply list_elem_of_In, in_cells in Hc. simpl. nia.
    + intros p q Hp Hq. apply list_elem_of_fmap in Hp as ([a c] & -> & Hac).
      apply list_elem_of_fmap in Hq as ([a' c'] & -> & Hac').
      apply list_elem_of_In, in_cells in Hac as [Ha Hc].
      apply list_elem_of_In, in_cells in Hac' as [Ha' Hc'].
      right. right. simpl. by rewrite !box_of_target.
Qed.

(** When the solver completes a seeded grid, the completed grid has every
    row, every column and every box equal to a permutation of 1..N. *)
Lemma seeded_solved_isSudoku rs g rs' res :
  seedPuzzle (bs * bs) rs = Some (g, rs') ->
  solveSudoku g = Some res -> solved res = true ->
  isSudoku bs (grid res).
Proof.
  intros Hseed Hsol Hok.
  assert (inRange g) as Hrange.
  { unfold seedPuzzle in Hseed. eapply seedDiagonal_inRange; [| |exact Hseed].
    - by rewrite length_replicate.
    - intros r c v Hv. unfold cell in Hv.
      destruct (replicate _ _ !! r) as [l|] eqn:Hl; [|done].
      apply lookup_replicate in Hl as [-> _].
      apply lookup_replicate in Hv as [-> _]. lia. }
  apply (seedPuzzle_spec bs bs_pos) in Hseed as (Hn & Hsq & Hcf & _).
  apply solveSudoku_solve in Hsol. rewrite Hok in Hsol.
  pose proof (solve_conflictFree bs _ _ _ _ _ _ Hn Hsq Hcf Hsol) as (Hn1 & Hsq1 & Hcf1).
  apply full_conflictFree_isSudoku; try done.
  - by eapply solve_inRange.
  - by eapply solve_full.
Qed.
End Completed.

(** Of the 576 ways the two shuffles of generatePuzzle(4) can come out,
    288 seed a grid that the solver completes. *)
Lemma seedings4_half_solved :
  length allDraws4 = 576 /\
  length (List.filter (seedSolved 4) allDraws4) = 288.
Proof. split; vm_compute; reflexivity. Qed.

(** ** Claims about the validator and the generator *)

Lemma unitDrawb_Forall (rs : list Q) :
  forallb unitDrawb rs = true -> Forall unitDraw rs.
Proof.
  rewrite forallb_forall, Forall_forall. intros H u Hu.
  apply list_elem_of_In, H, andb_prop in Hu as [H0 H1].
  apply Qle_bool_iff in H0. apply negb_true_iff in H1.
  split; [done|]. apply Qnot_le_lt. intros Hle.
  apply Qle_bool_iff in Hle. congruence.
Qed.


(** C6: on an N x N board with N = bs * bs, isValidSudoku returns false
    when two different cells of one row, one column or one box hold the
    same value other than 0; it returns true on the board of zeros of any
    size; and it returns true on every board that generatePuzzle returns,
    whatever the draws. *)
Theorem isValidSudoku_conflicts_zeros_generated :
  (forall (b : board) bs p q v,
     square b -> length b = bs * bs ->
     cell b p.1 p.2 = Some v -> cell b q.1 q.2 = Some v -> v <> 0%Z ->
     p <> q -> related bs p q ->
     valid (isValidSudoku b) = false) /\
  (forall n, valid (isValidSudoku (replicate n (replicate n 0%Z))) = true) /\
  (forall bs rs b rs',
     0 < bs -> generatePuzzle (bs * bs) rs = Some (b, rs') ->
     valid (isValidSudoku b) = true).
Proof.
  split; [|split].
  - intros b bs p q v Hsq Hn Hp Hq Hv Hne Hrel.
    apply not_true_is_false. rewrite (isValidSudoku_conflictFree b bs) by done.
    intros Hcf. apply (Hcf p q v); try done.
    by rewrite Hn, Nat.sqrt_square.
  - intros n. unfold isValidSudoku. by rewrite validScan_zero.
  - intros bs rs b rs' Hbs H.
    apply generatePuzzle_conflictFree in H as (Hn & Hsq & Hcf); [|done].
    by apply (isValidSudoku_conflictFree b bs).
Qed.

Lemma isValidSudoku_conflicts_zeros_generated_witness :
  valid (isValidSudoku [[1; 1; 0; 0]; [0; 0; 0; 0]; [0; 0; 0; 0]; [0; 0; 0; 0]]%Z)
    = false /\
  valid (isValidSudoku (replicate 4 (replicate 4 0%Z))) = true /\
  valid (isValidSudoku puzzle9) = true.
Proof.
  destruct isValidSudoku_conflicts_zeros_generated as (Hbad & Hzero & Hgen).
  split; [|split].
  - apply (Hbad _ 2 (0, 0) (0, 1) 1%Z);
      [repeat constructor | reflexivity | reflexivity | reflexivity
      | discriminate | discriminate | by left].
  - apply Hzero.
  - apply (Hgen 3 draws9 puzzle9 []); [lia | vm_compute; reflexivity].
Defined.

(** C8 as stated, at a run where it fails.  With the draws [drawsHalf4]
    the share [0.3 + u * 0.2] rounds to one half: generatePuzzle(4)
    returns a board with 8 of its 16 cells filled, which is
    floor(16 * r) for no r with 0.3 <= r < 0.5. *)
Lemma generatePuzzle_4_keeps_half :
  Forall unitDraw drawsHalf4 /\
  seedSolved 4 drawsHalf4 = true /\
  generatePuzzle 4 drawsHalf4 = Some (puzzleHalf4, []) /\
  filledCells puzzleHalf4 = 8 /\
  ~ (exists r : Q,
       (3 # 10 <= r)%Q /\ (r < 1 # 2)%Q /\
       filledCells puzzleHalf4 =
         Z.to_nat (Qfloor (inject_Z (Z.of_nat (2 * 2 * (2 * 2))) * r))).
Proof.
  split; [apply unitDrawb_Forall; vm_compute; reflexivity|].
  split; [vm_compute; reflexivity|].
  split; [vm_compute; reflexivity|].
  split; [vm_compute; reflexivity|].
  intros (r & Hlo & Hhi & Hcount).
  change (filledCells puzzleHalf4) with 8 in Hcount.
  change (Z.of_nat (2 * 2 * (2 * 2))) with 16%Z in Hcount.
  assert (Qfloor (inject_Z 16 * r) < 8)%Z; [|lia].
  rewrite Zlt_Qlt. eapply Qle_lt_trans; [apply Qfloor_le|].
  unfold inject_Z. lra.
Qed.

(** C8, with the share of one half included: on a side of N = bs * bs
    of 4, 9 or 16, for draws of [[0, 1)], the board that generatePuzzle
    returns has floor(N * N * r) filled cells for a share r with
    0.3 <= r <= 0.5, on the 4 x 4 grid when the solver has completed the
    seeded grid; for N = 9 this count lies between 24 = round(81 * 0.3)
    and 40, below round(81 * 0.5). *)
Theorem generatePuzzle_filled_count (bs : nat) (rs : list Q) (b : board) (rs' : list Q) :
  2 <= bs <= 4 -> Forall unitDraw rs ->
  generatePuzzle (bs * bs) rs = Some (b, rs') ->
  3 <= bs \/ seedSolved (bs * bs) rs = true ->
  (exists r : Q,
     (3 # 10 <= r)%Q /\ (r <= 1 # 2)%Q /\
     filledCells b =
       Z.to_nat (Qfloor (inject_Z (Z.of_nat (bs * bs * (bs * bs))) * r))) /\
  (bs = 3 -> 24 <= filledCells b <= 40).
Proof.
  intros Hbs Hrs H Hsolved.
  destruct (generatePuzzle_count bs rs b rs' ltac:(lia) Hrs H Hsolved)
    as (u & Hu & Hcount).
  rewrite Hcount.
  assert (bs * bs * (bs * bs) = 16 \/ bs * bs * (bs * bs) = 81 \/
          bs * bs * (bs * bs) = 256) as Hn.
  { assert (bs = 2 \/ bs = 3 \/ bs = 4) as [-> | [-> | ->]] by lia; auto. }
  pose proof (cellsToKeep_half (bs * bs) u Hu ltac:(lia)) as [Hhalf Hlow].
  set (k := cellsToKeep (bs * bs) u) in *.
  set (n := bs * bs * (bs * bs)) in *. split.
  - assert (0 < inject_Z (Z.of_nat n))%Q as Hpos.
    { change 0%Q with (inject_Z 0). rewrite <- Zlt_Qlt. lia. }
    destruct (decide (3 * n <= 10 * k)) as [Hge|Hlt].
    + exists (inject_Z (Z.of_nat k) / inject_Z (Z.of_nat n))%Q. split_and!.
      * apply Qle_shift_div_l; [done|].
        assert (inject_Z 3 * inject_Z (Z.of_nat n)
                <= inject_Z 10 * inject_Z (Z.of_nat k))%Q as Hq
          by (rewrite <- !inject_Z_mult, <- Zle_Qle; lia).
        unfold inject_Z in *. lra.
      * apply Qle_shift_div_r; [done|].
        assert (inject_Z 2 * inject_Z (Z.of_nat k) <= inject_Z (Z.of_nat n))%Q as Hq
          by (rewrite <- !inject_Z_mult, <- Zle_Qle; lia).
        unfold inject_Z in *. lra.
      * assert (inject_Z (Z.of_nat n) * (inject_Z (Z.of_nat k) / inject_Z (Z.of_nat n))
                == inject_Z (Z.of_nat k))%Q as -> by (field; lra).
        by rewrite Qfloor_Z, Nat2Z.id.
    + exists (3 # 10)%Q. split_and!; [done..|].
      assert (Qfloor (inject_Z (Z.of_nat n) * (3 # 10)) = (3 * Z.of_nat n / 10)%Z) as ->.
      { unfold Qfloor, inject_Z, Qmult; simpl. f_equal. lia. }
      pose proof (Z.div_mod (3 * Z.of_nat n) 10 ltac:(lia)).
      pose proof (Z.mod_pos_bound (3 * Z.of_nat n) 10 ltac:(lia)).
      clearbody n k. destruct Hn as [-> | [-> | ->]]; lia.
  - intros ->. unfold n in *. lia.
Qed.

Lemma generatePuzzle_filled_count_witness :
  (exists r : Q,
     (3 # 10 <= r)%Q /\ (r <= 1 # 2)%Q /\
     filledCells puzzle9 =
       Z.to_nat (Qfloor (inject_Z (Z.of_nat (3 * 3 * (3 * 3))) * r))) /\
  (3 = 3 -> 24 <= filledCells puzzle9 <= 40).
Proof.
  apply (generatePuzzle_filled_count 3 draws9 puzzle9 []);
    [lia | apply unitDrawb_Forall; vm_compute; reflexivity
    | vm_compute; reflexivity | left; lia].
Defined.

(** C1, at a run where it fails.  With the draws [draws4] the two
    shuffles of generatePuzzle(4) give 1,2,3,4 and 1,3,2,4; the grid
    seeded with them has no completion: solveSudoku returns solved = false
    after three steps and hands the seeded grid back, from which
    generatePuzzle goes on to remove cells. *)
Theorem generatePuzzle_4_seed_without_solution :
  Forall unitDraw draws4 /\
  seedPuzzle 4 draws4 = Some (seeded4, []) /\
  solveSudoku seeded4 = Some (mkResult false seeded4 3).
Proof.
  split; [apply unitDrawb_Forall; reflexivity|].
  split; reflexivity.
Qed.

(** * Further properties of the solver utilities *)

(** ** The solver finds a completion whenever there is one *)

Section Completeness.
Variables (bs : nat) (c : board).
Hypothesis c_solution : solution bs c.
Implicit Types (b : board).

Lemma solution_value b row col :
  length b = bs * bs -> keepsFilled b c -> firstEmpty b = Some (row, col) ->
  exists num,
    cell c row col = Some (Z.of_nat num) /\ 1 <= num <= length b /\
    isSafe b row col (Z.of_nat num) = true /\
    keepsFilled (setCell b row col (Z.of_nat num)) c.
Proof.
  destruct c_solution as (Hcn & Hcsq & Hccf & Hcr & Hcfull).
  intros Hn Hkeep Hfe. apply firstEmpty_Some in Hfe as (Hz & Hrow & Hcol).
  destruct (square_cell c row col Hcsq) as [v Hv]; [lia | lia |].
  rewrite firstEmpty_None in Hcfull.
  assert (v <> 0%Z) as Hvz.
  { intros ->. apply (Hcfull row col); [lia | lia | done]. }
  pose proof (Hcr _ _ _ Hv) as Hvr. rewrite Hcn, <- Hn in Hvr.
  exists (Z.to_nat v). rewrite Z2Nat.id by lia.
  split; [done|]. split; [lia|]. split.
  - rewrite (isSafe_related b bs) by done. intros r c0 Hr Hc0 Hrel Hb.
    destruct (decide ((row, col) = (r, c0))) as [[= <- <-]|Hne]; [congruence|].
    apply (Hccf (row, col) (r, c0) v); try done.
    + by apply Hkeep.
    + by rewrite Hcn, Nat.sqrt_square.
  - intros r c0 w. rewrite cell_setCell.
    case_decide as Hd; [|apply Hkeep].
    destruct Hd as (<- & <- & _). by intros [= <-].
Qed.

Lemma solve_complete fuel b s :
  length b = bs * bs -> keepsFilled b c -> empties b < fuel ->
  exists b' s', solve fuel (b, s) = Some (true, (b', s')).
Proof.
  revert b s. induction fuel as [|fuel IH]; intros b s Hn Hkeep Hfuel; [lia|].
  simpl. destruct (firstEmpty b) as [[row col]|] eqn:Hfe; [|eauto].
  destruct (solution_value b row col Hn Hkeep Hfe)
    as (num0 & _ & Hnum0 & Hsafe0 & Hkeep0).
  assert (In num0 (seq 1 (length b))) as Hin by (apply in_seq; lia).
  assert (Forall (fun num => 1 <= num) (seq 1 (length b))) as Hnums.
  { apply Forall_forall. intros num Hnum. apply elem_of_seq in Hnum. lia. }
  revert Hin Hnums. generalize (S s). clear s.
  generalize (seq 1 (length b)) as nums.
  induction nums as [|num nums IHn]; intros s Hin Hnums; [destruct Hin|].
  apply Forall_cons in Hnums as [Hnum Hnums].
  simpl. destruct (decide (num = num0)) as [->|Hne].
  - rewrite Hsafe0.
    destruct (IH (setCell b row col (Z.of_nat num0)) s) as (b1 & s1 & ->); eauto.
    + by rewrite length_setCell.
    + pose proof (empties_setCell b row col (Z.of_nat num0) Hfe ltac:(lia)). lia.
  - destruct Hin as [?|Hin]; [done|].
    destruct (isSafe b row col (Z.of_nat num)); [|by apply IHn].
    destruct (solve_total fuel (setCell b row col (Z.of_nat num)) s)
      as [[ok [b1 s1]] Hrec].
    { pose proof (empties_setCell b row col (Z.of_nat num) Hfe ltac:(lia)). lia. }
    rewrite Hrec. destruct ok; [eauto|].
    apply solve_frame in Hrec as (_ & _ & ->); [|done]. simpl.
    rewrite setCell_undo by (by apply firstEmpty_Some in Hfe as [? _]).
    by apply IHn.
Qed.
End Completeness.

Lemma inRangeb_inRange (b : board) : inRangeb b = true -> inRange b.
Proof.
  unfold inRangeb, inRange, cell. rewrite forallb_forall. intros H r c v Hv.
  destruct (b !! r) as [l|] eqn:Hl; [|done].
  apply list_elem_of_lookup_2, list_elem_of_In, H in Hl.
  rewrite forallb_forall in Hl.
  apply list_elem_of_lookup_2, list_elem_of_In, Hl in Hv. lia.
Qed.

Lemma keepsFilledb_keepsFilled (b c : board) :
  square b -> keepsFilledb b c = true -> keepsFilled b c.
Proof.
  unfold keepsFilledb. rewrite forallb_forall. intros Hsq H r c0 v Hv Hz.
  destruct (square_cell_lt _ _ _ _ Hsq Hv) as [Hr Hc].
  specialize (H (r, c0) ltac:(by apply in_cells)). simpl in H. rewrite Hv in H.
  apply orb_prop in H as [H|H]; [lia | by apply cellIs_true].
Qed.

Lemma solved4_solution : solution 2 solved4.
Proof.
  split; [reflexivity|]. split; [repeat constructor|].
  split.
  { apply (isValidSudoku_conflictFree solved4 2);
      [repeat constructor | reflexivity | reflexivity]. }
  split; [by apply inRangeb_inRange | reflexivity].
Qed.

(** X1: when the validator accepts an N x N board with cells of 0..N and
    solveSudoku returns solved = true, the returned board is a completed
    sudoku (every row, column and box a permutation of 1..N) that keeps
    every filled cell of the input. *)
Theorem solveSudoku_solved_is_solution (b : board) (bs : nat) (res : SolveResult) :
  length b = bs * bs -> square b -> inRange b ->
  valid (isValidSudoku b) = true ->
  solveSudoku b = Some res -> solved res = true ->
  solution bs (grid res) /\ isSudoku bs (grid res) /\ keepsFilled b (grid res).
Proof.
  intros Hn Hsq Hrange Hvalid Hres Hok.
  apply (isValidSudoku_conflictFree b bs) in Hvalid; [|done..].
  apply solveSudoku_solve in Hres. rewrite Hok in Hres.
  pose proof (solve_conflictFree bs _ _ _ _ _ _ Hn Hsq Hvalid Hres) as (Hn1 & Hsq1 & Hcf1).
  pose proof (solve_inRange _ _ _ _ _ _ Hrange Hres) as Hrange1.
  pose proof (solve_full _ _ _ _ _ Hres) as Hfull.
  pose proof (solve_frame _ _ _ _ _ _ Hres) as (_ & Hkeep & _).
  split; [done|]. split; [|done].
  destruct bs as [|bs'].
  - split; [|split]; intros; lia.
  - apply full_conflictFree_isSudoku; [lia | done..].
Qed.

Lemma solveSudoku_solved_is_solution_witness :
  solution 2 solved4 /\ isSudoku 2 solved4 /\ keepsFilled scenario4 solved4.
Proof.
  apply (solveSudoku_solved_is_solution scenario4 2 (mkResult true solved4 2));
    [reflexivity | repeat constructor | by apply inRangeb_inRange
    | reflexivity | reflexivity | reflexivity].
Defined.

(** X2: on a board of side N = bs * bs, when some completed sudoku keeps
    the filled cells of the board, solveSudoku returns solved = true; so
    solved = false tells that the board has no completion. *)
Theorem solveSudoku_finds_a_solution (b c : board) (bs : nat) :
  length b = bs * bs -> solution bs c -> keepsFilled b c ->
  exists res, solveSudoku b = Some res /\ solved res = true.
Proof.
  intros Hn Hc Hkeep.
  destruct (solve_complete bs c Hc (S (empties b)) b 0 Hn Hkeep ltac:(lia))
    as (b' & s' & Hs).
  exists (mkResult true b' s'). unfold solveSudoku. by rewrite Hs.
Qed.

Lemma solveSudoku_finds_a_solution_witness :
  exists res, solveSudoku scenario4 = Some res /\ solved res = true.
Proof.
  apply (solveSudoku_finds_a_solution scenario4 solved4 2);
    [reflexivity | apply solved4_solution
    | by apply keepsFilledb_keepsFilled; [repeat constructor|]].
Defined.

(** X3: on an N x N board with N = bs * bs, isValidSudoku returns true
    exactly when no value other than 0 stands in two different cells of
    one row, one column or one box. *)
Theorem isValidSudoku_true_iff_no_conflict (b : board) (bs : nat) :
  square b -> length b = bs * bs ->
  valid (isValidSudoku b) = true <->
  (forall p q v,
     cell b p.1 p.2 = Some v -> cell b q.1 q.2 = Some v -> v <> 0%Z -> p <> q ->
     ~ (p.1 = q.1 \/ p.2 = q.2 \/ (p.1 / bs = q.1 / bs /\ p.2 / bs = q.2 / bs))).
Proof.
  intros Hsq Hn. rewrite (isValidSudoku_conflictFree b bs) by done.
  unfold conflictFree, related. by rewrite Hn, Nat.sqrt_square.
Qed.

Lemma isValidSudoku_true_iff_no_conflict_witness :
  valid (isValidSudoku scenario4) = true <->
  (forall p q v,
     cell scenario4 p.1 p.2 = Some v -> cell scenario4 q.1 q.2 = Some v ->
     v <> 0%Z -> p <> q ->
     ~ (p.1 = q.1 \/ p.2 = q.2 \/ (p.1 / 2 = q.1 / 2 /\ p.2 / 2 = q.2 / 2))).
Proof.
  apply (isValidSudoku_true_iff_no_conflict scenario4 2);
    [repeat constructor | reflexivity].
Defined.

(** X4: on a board that the validator accepts, writing a value other than
    0 into an empty cell gives a board that the validator accepts exactly
    when isSafe accepted the value for that cell. *)
Theorem isValidSudoku_after_placement (b : board) (bs row col : nat) (num : Z) :
  square b -> length b = bs * bs ->
  valid (isValidSudoku b) = true ->
  cell b row col = Some 0%Z -> num <> 0%Z ->
  valid (isValidSudoku (setCell b row col num)) = isSafe b row col num.
Proof.
  intros Hsq Hn Hvalid Hz Hnum.
  destruct (square_cell_lt _ _ _ _ Hsq Hz) as [Hrow Hcol].
  apply (isValidSudoku_conflictFree b bs) in Hvalid; [|done..].
  destruct (isSafe b row col num) eqn:Hsafe.
  - apply (isValidSudoku_conflictFree _ bs);
      [by apply square_setCell | by rewrite length_setCell |].
    by apply (conflictFree_place bs).
  - apply not_true_is_false. intros Hv.
    apply (isValidSudoku_conflictFree _ bs) in Hv;
      [| by apply square_setCell | by rewrite length_setCell].
    assert (isSafe b row col num = true); [|congruence].
    apply (isSafe_related b bs); [done..|]. intros r c Hr Hc Hrel Hb.
    assert ((row, col) <> (r, c)) as Hne by (intros [= <- <-]; congruence).
    apply (Hv (row, col) (r, c) num); simpl; try done.
    + by apply (cell_setCell_eq _ _ _ _ 0%Z).
    + by rewrite cell_setCell_ne.
    + by rewrite length_setCell, Hn, Nat.sqrt_square.
Qed.

Lemma isValidSudoku_after_placement_witness :
  valid (isValidSudoku (setCell scenario4 3 3 4)) = isSafe scenario4 3 3 4.
Proof.
  apply (isValidSudoku_after_placement scenario4 2 3 3 4);
    [repeat constructor | reflexivity | reflexivity | reflexivity | discriminate].
Defined.

(** X5: emptying a cell of a board that the validator accepts gives a
    board that the validator accepts. *)
Theorem isValidSudoku_after_clearing (b : board) (bs row col : nat) :
  square b -> length b = bs * bs ->
  valid (isValidSudoku b) = true ->
  valid (isValidSudoku (setCell b row col 0)) = true.
Proof.
  intros Hsq Hn Hvalid.
  apply (isValidSudoku_conflictFree b bs) in Hvalid; [|done..].
  apply (isValidSudoku_conflictFree _ bs);
    [by apply square_setCell | by rewrite length_setCell |].
  by apply conflictFree_clear.
Qed.

Lemma isValidSudoku_after_clearing_witness :
  valid (isValidSudoku (setCell scenario4 1 2 0)) = true.
Proof.
  apply (isValidSudoku_after_clearing scenario4 2 1 2);
    [repeat constructor | reflexivity | reflexivity].
Defined.

(** X6: a board that solveSudoku returned with solved = true is returned
    unchanged, in one step, when it is given to solveSudoku again. *)
Theorem solveSudoku_again (b : board) (res : SolveResult) :
  solveSudoku b = Some res -> solved res = true ->
  solveSudoku (grid res) = Some (mkResult true (grid res) 1).
Proof.
  intros Hres Hok. apply solveSudoku_solve in Hres. rewrite Hok in Hres.
  apply solve_full in Hres. unfold solveSudoku. simpl. by rewrite Hres.
Qed.

Lemma solveSudoku_again_witness :
  solveSudoku solved4 = Some (mkResult true solved4 1).
Proof.
  apply (solveSudoku_again scenario4 (mkResult true solved4 2)); reflexivity.
Defined.

(** ** What the animated solver shows *)

Section Shown.
Variable delay : Q.
Implicit Types (b snap : board) (us : list (board * Q)) (tr : list event).

(** What a frame entered with the board [b] and the events [tr] leaves:
    the events added are calls of onUpdate, each followed by a timer of
    [delay] or half of it; every board shown has the side of [b] and its
    filled cells; the last board shown is the board left. *)
Let frame_shows b tr (ok : bool) b' tr' : Prop :=
  exists us,
    tr' = tr ++ updates us /\
    Forall (fun p => (p.2 = delay \/ p.2 = (delay / 2)%Q) /\
                     length p.1 = length b /\ keepsFilled b p.1) us /\
    match last us with Some p => p.1 = b' | None => b' = b end /\
    (ok = false -> b' = b).

Lemma keepsFilled_placed b row col v snap :
  cell b row col = Some 0%Z ->
  keepsFilled (setCell b row col v) snap -> keepsFilled b snap.
Proof.
  intros Hz H r c w Hw Hwz. apply H; [|done].
  rewrite cell_setCell_ne; [done|]. intros [= <- <-]. congruence.
Qed.

Lemma tryNumsAnimated_shows recA row col nums b :
  (forall b1 n1 tr1 ok1 b1' n1' tr1',
     recA (b1, n1, tr1) = Some (ok1, (b1', n1', tr1')) ->
     frame_shows b1 tr1 ok1 b1' tr1') ->
  cell b row col = Some 0%Z ->
  forall n tr ok b' n' tr',
    tryNumsAnimated delay recA row col nums (b, n, tr) = Some (ok, (b', n', tr')) ->
    frame_shows b tr ok b' tr'.
Proof.
  intros Hrec Hz.
  induction nums as [|num nums IH]; intros n tr ok b' n' tr'; simpl.
  { intros [= <- <- <- <-]. exists []. unfold updates; simpl.
    by rewrite app_nil_r. }
  destruct (isSafe b row col (Z.of_nat num)); [|apply IH].
  unfold emit; simpl.
  set (b1 := setCell b row col (Z.of_nat num)).
  destruct (recA _) as [[ok1 [[b1' n1'] tr1']]|] eqn:Hr; [|done].
  apply Hrec in Hr as (us1 & -> & Hus1 & Hlast1 & Hfail1).
  assert (Forall (fun p => (p.2 = delay \/ p.2 = (delay / 2)%Q) /\
                           length p.1 = length b /\ keepsFilled b p.1) us1) as Hus1'.
  { eapply Forall_impl; [exact Hus1|]. intros p (Hd & Hl & Hk).
    split; [done|]. split.
    - rewrite Hl. apply length_setCell.
    - by apply (keepsFilled_placed b row col (Z.of_nat num)). }
  assert (length b1 = length b /\ keepsFilled b b1) as [Hlb1 Hkb1].
  { split; [apply length_setCell|]. intros r c w Hw Hwz.
    unfold b1. rewrite cell_setCell_ne; [done|]. intros [= <- <-]. congruence. }
  destruct ok1.
  - intros [= <- <- <- <-]. exists ((b1, delay) :: us1). split; [|split; [|split]].
    + unfold updates; simpl. by rewrite <- !app_assoc.
    + apply Forall_cons. split; [|done]. simpl. auto.
    + rewrite last_cons. by destruct (last us1).
    + done.
  - simpl. rewrite (Hfail1 eq_refl).
    assert (setCell b1 row col 0 = b) as Hundo by (by apply setCell_undo).
    rewrite !Hundo. intros H. apply IH in H as (us2 & -> & Hus2 & Hlast2 & Hfail2).
    exists ((b1, delay) :: us1 ++ (b, (delay / 2)%Q) :: us2).
    split; [|split; [|split]].
    + unfold updates; simpl. rewrite !bind_app; simpl.
      by rewrite <- !app_assoc.
    + apply Forall_cons. split; [simpl; auto|].
      apply Forall_app. split; [done|].
      apply Forall_cons. split; [|done]. simpl.
      split; [by right|]. split; [done|]. by intros r c w Hw _.
    + rewrite last_cons, last_app, last_cons.
      destruct (last us2); simpl in *; done.
    + done.
Qed.

Lemma solveAnimated_shows fuel b n tr ok b' n' tr' :
  solveAnimated delay fuel (b, n, tr) = Some (ok, (b', n', tr')) ->
  frame_shows b tr ok b' tr'.
Proof.
  revert b n tr ok b' n' tr'.
  induction fuel as [|fuel IH]; intros b n tr ok b' n' tr'; [done|].
  simpl. destruct (firstEmpty b) as [[row col]|] eqn:Hfe.
  - apply tryNumsAnimated_shows; [apply IH|].
    by apply firstEmpty_Some in Hfe as [? _].
  - intros [= <- <- <- <-]. exists []. unfold updates; simpl.
    by rewrite app_nil_r.
Qed.
End Shown.

Lemma shown_updates (us : list (board * Q)) : shown (updates us) = us.*1.
Proof.
  unfold shown, updates. induction us as [|p us IH]; [done|].
  rewrite bind_cons. simpl. by f_equal.
Qed.

Lemma solveSudokuAnimated_solveAnimated (b : board) (delay : Q) res events :
  solveSudokuAnimated b delay = Some (res, events) ->
  solveAnimated delay (S (empties b)) (b, 0, []) =
    Some (solved res, (grid res, steps res, events)).
Proof.
  unfold solveSudokuAnimated.
  destruct (solveAnimated _ _ _) as [[ok [[b' n] tr]]|]; [|done].
  by intros [= <- <-].
Qed.

(** X7: the events of an animated run are calls of onUpdate, each followed
    by one timer of [delay] or of half of it; every board passed to
    onUpdate has as many rows as the starting board and holds the values
    of its filled cells. *)
Theorem solveSudokuAnimated_events (b : board) (delay : Q)
    (res : SolveResult) (events : list event) :
  solveSudokuAnimated b delay = Some (res, events) ->
  exists us,
    events = updates us /\
    Forall (fun p => (p.2 = delay \/ p.2 = (delay / 2)%Q) /\
                     length p.1 = length b /\ keepsFilled b p.1) us.
Proof.
  intros H. apply solveSudokuAnimated_solveAnimated, solveAnimated_shows in H.
  destruct H as (us & -> & Hus & _). by exists us.
Qed.

Lemma solveSudokuAnimated_events_witness :
  exists us,
    [Update solved4; Sleep 50] = updates us /\
    Forall (fun p => (p.2 = 50%Q \/ p.2 = (50 / 2)%Q) /\
                     length p.1 = length scenario4 /\ keepsFilled scenario4 p.1) us.
Proof.
  apply (solveSudokuAnimated_events scenario4 50 (mkResult true solved4 2)).
  reflexivity.
Defined.

(** X8: the last board passed to onUpdate in an animated run is the board
    the run returns; a run that never calls onUpdate returns the board it
    was given. *)
Theorem solveSudokuAnimated_last_shown (b : board) (delay : Q)
    (res : SolveResult) (events : list event) :
  solveSudokuAnimated b delay = Some (res, events) ->
  match last (shown events) with
  | Some snap => snap = grid res
  | None => events = [] /\ grid res = b
  end.
Proof.
  intros H. apply solveSudokuAnimated_solveAnimated, solveAnimated_shows in H.
  destruct H as (us & -> & _ & Hlast & _). simpl.
  rewrite shown_updates, fmap_last.
  destruct (last us) as [p|] eqn:Hl; simpl; [done|].
  apply last_None in Hl as ->. done.
Qed.

Lemma solveSudokuAnimated_last_shown_witness :
  match last (shown [Update solved4; Sleep 50]) with
  | Some snap => snap = solved4
  | None => [Update solved4; Sleep 50] = [] /\ solved4 = scenario4
  end.
Proof.
  apply (solveSudokuAnimated_last_shown scenario4 50 (mkResult true solved4 2)).
  reflexivity.
Defined.

(** ** More on the generator *)

Section Boxes.
Implicit Types (g grid b : board) (rs : list Q) (ps : list (nat * nat)).

Lemma shuffle_draws i numbers rs numbers' rs' :
  shuffle i numbers rs = Some (numbers', rs') -> length rs = length rs' + i.
Proof.
  revert numbers rs. induction i as [|i IH]; intros numbers rs; simpl.
  - intros [= <- <-]. lia.
  - intros H. apply rand_bind_Some in H as (j & rs1 & Hj & H).
    apply IH in H. unfold randomBelow in Hj.
    apply rand_bind_Some in Hj as (u & rs2 & Hu & Hj). injection Hj as <- <-.
    destruct rs as [|u' rs]; [done|]. injection Hu as <- <-. simpl. lia.
Qed.

Lemma shuffle_enough i numbers rs :
  i <= length rs -> is_Some (shuffle i numbers rs).
Proof.
  revert numbers rs. induction i as [|i IH]; intros numbers rs Hlen; simpl.
  - eauto.
  - destruct rs as [|u rs]; simpl in Hlen; [lia|].
    unfold mbind, rand_bind, randomBelow; simpl. apply IH. lia.
Qed.

Lemma valuesAt_lookups g ps (vs : list Z) :
  length ps = length vs ->
  (forall i p, ps !! i = Some p -> cell g p.1 p.2 = vs !! i) ->
  valuesAt g ps = vs.
Proof.
  revert vs. induction ps as [|p ps IH]; intros [|v vs] Hlen H; try done.
  unfold valuesAt in *. simpl.
  rewrite (H 0 p eq_refl). simpl. f_equal.
  apply IH; [simpl in Hlen; lia|]. intros i q Hq. apply (H (S i) q Hq).
Qed.
End Boxes.

(** X9: on an N x N grid with N = bs * bs, fillBox called for the box
    (k, l) draws N - 1 times, writes the numbers 1..N in some order into
    the cells of that box and changes no other cell; it returns whenever
    N - 1 draws are left. *)
Theorem fillBox_fills_one_box (bs k l : nat) (grid : board) (rs : list Q) :
  square grid -> length grid = bs * bs -> k < bs -> l < bs ->
  (bs * bs - 1 <= length rs ->
   is_Some (fillBox grid (k * bs) (l * bs) (bs * bs) rs)) /\
  (forall g' rs',
     fillBox grid (k * bs) (l * bs) (bs * bs) rs = Some (g', rs') ->
     valuesAt g' (boxCells bs k l) ≡ₚ oneToN (bs * bs) /\
     (forall r c, ~ (r / bs = k /\ c / bs = l) -> cell g' r c = cell grid r c) /\
     length rs = length rs' + (bs * bs - 1)).
Proof.
  intros Hsq Hn Hk Hl. split.
  - intros Hlen. unfold fillBox.
    destruct (shuffle_enough (bs * bs - 1) (Z.of_nat <$> seq 1 (bs * bs)) rs Hlen)
      as [[numbers rs1] Hsh].
    unfold mbind, rand_bind. rewrite Hsh. eauto.
  - intros g' rs' H. unfold fillBox in H.
    apply rand_bind_Some in H as (numbers & rs1 & Hsh & H).
    injection H as <- <-. rewrite Nat.sqrt_square.
    pose proof (shuffle_draws _ _ _ _ _ Hsh) as Hdraws.
    pose proof (shuffle_perm _ _ _ _ _ Hsh) as Hperm.
    assert (length numbers = bs * bs) as Hlen.
    { by rewrite Hperm, length_fmap, length_seq. }
    split; [|split; [|done]].
    + unfold oneToN. rewrite <- Hperm.
      unfold boxCells. rewrite (valuesAt_lookups _ _ numbers); [done| |].
      * unfold cells. by rewrite length_fmap, length_prod, length_seq.
      * intros i p Hp. rewrite list_lookup_fmap in Hp.
        destruct (cells bs !! i) as [[a c]|] eqn:Hi; [|done].
        injection Hp as <-. simpl.
        assert (a < bs /\ c < bs) as [Ha Hc].
        { apply in_cells, list_elem_of_In. by eapply list_elem_of_lookup_2. }
        apply (fill_target (k * bs) (l * bs) numbers (cells bs) grid 0 i (a, c)).
        -- apply (NoDup_cells bs).
        -- done.
        -- simpl. apply square_cell; [done | nia | nia].
        -- unfold cells. rewrite length_prod, length_seq. lia.
    + intros r c Hrc. apply fill_other. intros [a c'] Hp E; simpl in E.
      apply in_cells in Hp as [Ha Hc]. injection E as -> ->.
      apply Hrc. split; apply box_of_target; lia.
Qed.

Lemma fillBox_fills_one_box_witness :
  (2 * 2 - 1 <= length [3 # 4; 1 # 3; 1 # 2]%Q ->
   is_Some (fillBox (replicate 4 (replicate 4 0%Z)) (1 * 2) (0 * 2) (2 * 2)
              [3 # 4; 1 # 3; 1 # 2]%Q)) /\
  (forall g' rs',
     fillBox (replicate 4 (replicate 4 0%Z)) (1 * 2) (0 * 2) (2 * 2)
       [3 # 4; 1 # 3; 1 # 2]%Q = Some (g', rs') ->
     valuesAt g' (boxCells 2 1 0) ≡ₚ oneToN (2 * 2) /\
     (forall r c, ~ (r / 2 = 1 /\ c / 2 = 0) ->
        cell g' r c = cell (replicate 4 (replicate 4 0%Z)) r c) /\
     length [3 # 4; 1 # 3; 1 # 2]%Q = length rs' + (2 * 2 - 1)).
Proof.
  apply (fillBox_fills_one_box 2 1 0 (replicate 4 (replicate 4 0%Z)));
    [repeat constructor | reflexivity | lia | lia].
Defined.

Section Puzzles.
Variable bs : nat.
Implicit Types (g b : board) (rs : list Q).

Lemma fillBox_draws grid row col size rs g' rs' :
  fillBox grid row col size rs = Some (g', rs') ->
  length rs = length rs' + (size - 1).
Proof.
  unfold fillBox. intros H.
  apply rand_bind_Some in H as (numbers & rs1 & Hsh & H).
  injection H as <- <-. by apply shuffle_draws in Hsh.
Qed.

Lemma seedDiagonal_draws n k g rs g' rs' :
  0 < bs -> k <= bs -> bs - k <= n ->
  seedDiagonal n (k * bs) (bs * bs) g rs = Some (g', rs') ->
  length rs = length rs' + (bs - k) * (bs * bs - 1).
Proof.
  intros Hbs. revert k g rs. induction n as [|n IH]; intros k g rs Hk Hn; simpl.
  { intros [= <- <-]. assert (bs - k = 0) as -> by lia. lia. }
  destruct (k * bs <? bs * bs) eqn:Hlt.
  2:{ apply Nat.ltb_ge in Hlt. assert (bs - k = 0) as -> by nia.
      intros [= <- <-]. lia. }
  apply Nat.ltb_lt in Hlt. assert (k < bs) as Hk' by nia.
  intros H. apply rand_bind_Some in H as (g1 & rs1 & Hfill & H).
  apply fillBox_draws in Hfill. rewrite Nat.sqrt_square in H.
  replace (k * bs + bs) with (S k * bs) in H by lia.
  apply IH in H; [|lia..]. rewrite Hfill, H.
  replace (bs - k) with (S (bs - S k)) by lia. simpl. lia.
Qed.

Lemma removeCells_keepsFilled n size g rs b rs' :
  removeCells n size g rs = Some (b, rs') -> keepsFilled b g.
Proof.
  revert g rs. induction n as [|n IH]; intros g rs.
  { intros [= <- <-]. by intros r c v Hv _. }
  intros H. apply removeCells_inv in H as (row & col & rs1 & _ & H).
  apply IH in H. intros r c v Hv Hz. specialize (H r c v Hv Hz).
  rewrite cell_setCell in H. case_decide; [congruence | done].
Qed.

Lemma removeCells_inRange n size g rs b rs' :
  inRange g -> removeCells n size g rs = Some (b, rs') -> inRange b.
Proof.
  revert g rs. induction n as [|n IH]; intros g rs Hg.
  { by intros [= <- <-]. }
  intros H. apply removeCells_inv in H as (row & col & rs1 & _ & H).
  eapply IH; [|exact H]. apply inRange_setCell; [done | lia].
Qed.

Lemma seedPuzzle_inRange rs g rs' :
  0 < bs -> seedPuzzle (bs * bs) rs = Some (g, rs') -> inRange g.
Proof.
  intros Hbs Hseed. unfold seedPuzzle in Hseed.
  eapply (seedDiagonal_inRange bs Hbs); [| |exact Hseed].
  - by rewrite length_replicate.
  - intros r c v Hv. unfold cell in Hv.
    destruct (replicate _ _ !! r) as [l|] eqn:Hl; [|done].
    apply lookup_replicate in Hl as [-> _].
    apply lookup_replicate in Hv as [-> _]. lia.
Qed.

(** A board that the generator returns is a completed sudoku with some of
    its cells emptied: the grid that the solver has completed, or, for
    the 4 x 4 board that comes back with every cell emptied, any one. *)
Lemma generatePuzzle_from_solution rs b rs' :
  2 <= bs -> Forall unitDraw rs ->
  generatePuzzle (bs * bs) rs = Some (b, rs') ->
  exists c, solution bs c /\ keepsFilled b c /\ inRange b.
Proof.
  intros Hbs Hrs H. pose proof H as H0.
  apply generatePuzzle_inv in H as (g0 & rs0 & res & u & rs1 & Hseed & Hsol & -> & H).
  pose proof (seedPuzzle_inRange _ _ _ ltac:(lia) Hseed) as Hrange.
  pose proof Hseed as Hseed0.
  apply (seedPuzzle_spec bs ltac:(lia)) in Hseed as (Hn & Hsq & Hcf & Hc & Hsuf).
  pose proof Hsol as Hsol0.
  apply solveSudoku_solve in Hsol.
  pose proof (solve_conflictFree bs _ _ _ _ _ _ Hn Hsq Hcf Hsol) as (Hn1 & Hsq1 & Hcf1).
  pose proof (solve_inRange _ _ _ _ _ _ Hrange Hsol) as Hrange1.
  pose proof (removeCells_inRange _ _ _ _ _ _ Hrange1 H) as Hrangeb.
  destruct (solved res) eqn:Hok.
  - exists (grid res).
    split; [|split; [by eapply removeCells_keepsFilled | done]].
    apply solve_full in Hsol. unfold solution. by split_and!.
  - destruct (generatePuzzle_unsolved bs _ _ _ _ _ _ Hbs Hrs Hseed0 Hsol0 Hok H0)
      as [Hbs2 Hzero].
    exists solved4. rewrite Hbs2.
    split; [apply solved4_solution|]. split; [|done].
    intros row col v Hv Hvz. by apply (filledCells_zero_cell b row col v) in Hv.
Qed.
End Puzzles.

(** X10: the grid that generatePuzzle hands to the solver, with the
    diagonal boxes filled, is N x N with cells of 0..N, passes the
    validator, and has taken bs * (N - 1) draws, N = bs * bs. *)
Theorem seedPuzzle_is_valid (bs : nat) (rs : list Q) (g : board) (rs' : list Q) :
  0 < bs -> seedPuzzle (bs * bs) rs = Some (g, rs') ->
  length g = bs * bs /\ square g /\ inRange g /\
  valid (isValidSudoku g) = true /\
  length rs = length rs' + bs * (bs * bs - 1).
Proof.
  intros Hbs H.
  pose proof (seedPuzzle_inRange bs _ _ _ Hbs H) as Hrange.
  pose proof (seedPuzzle_spec bs Hbs _ _ _ H) as (Hn & Hsq & Hcf & _).
  split_and!; try done.
  - by apply (isValidSudoku_conflictFree g bs).
  - unfold seedPuzzle in H.
    apply (seedDiagonal_draws bs _ 0) in H; [|lia|lia|nia].
    by rewrite Nat.sub_0_r in H.
Qed.

Lemma seedPuzzle_is_valid_witness :
  length seeded4 = 2 * 2 /\ square seeded4 /\ inRange seeded4 /\
  valid (isValidSudoku seeded4) = true /\
  length draws4 = length (@nil Q) + 2 * (2 * 2 - 1).
Proof.
  apply (seedPuzzle_is_valid 2 draws4 seeded4 []); [lia | reflexivity].
Defined.

(** X11: for N = bs * bs with bs >= 2 and draws of [[0, 1)], a board that
    generatePuzzle returns is solved by solveSudoku: the call returns
    solved = true with a completed sudoku that keeps the filled cells of
    the puzzle. *)
Theorem generatePuzzle_is_solvable (bs : nat) (rs : list Q) (b : board) (rs' : list Q) :
  2 <= bs -> Forall unitDraw rs ->
  generatePuzzle (bs * bs) rs = Some (b, rs') ->
  exists res,
    solveSudoku b = Some res /\ solved res = true /\
    isSudoku bs (grid res) /\ keepsFilled b (grid res).
Proof.
  intros Hbs Hrs H.
  destruct (generatePuzzle_from_solution bs _ _ _ Hbs Hrs H) as (c & Hc & Hkeep & Hrange).
  apply generatePuzzle_conflictFree in H as (Hn & Hsq & Hcf); [|lia].
  destruct (solve_complete bs c Hc (S (empties b)) b 0 Hn Hkeep ltac:(lia))
    as (b' & s' & Hs).
  exists (mkResult true b' s'). split; [unfold solveSudoku; by rewrite Hs|].
  split; [done|]. simpl.
  pose proof (solve_conflictFree bs _ _ _ _ _ _ Hn Hsq Hcf Hs) as (Hn1 & Hsq1 & Hcf1).
  pose proof (solve_frame _ _ _ _ _ _ Hs) as (_ & Hk & _).
  split; [|done].
  apply full_conflictFree_isSudoku; [lia | done.. | |].
  - by eapply solve_inRange.
  - by eapply solve_full.
Qed.

Lemma generatePuzzle_is_solvable_witness :
  exists res,
    solveSudoku puzzle9 = Some res /\ solved res = true /\
    isSudoku 3 (grid res) /\ keepsFilled puzzle9 (grid res).
Proof.
  apply (generatePuzzle_is_solvable 3 draws9 puzzle9 []);
    [lia | apply unitDrawb_Forall; vm_compute; reflexivity
    | vm_compute; reflexivity].
Defined.

(** ** getDifficulty *)

Section Difficulty.
Implicit Types (b : board).

(** The comparison of the share of filled cells with a literal, on
    integers. *)
Lemma above_ratio (k m : nat) (a : Z) (d : positive) :
  0 < m ->
  above (inject_Z (Z.of_nat k) / inject_Z (Z.of_nat m)) (a # d) =
  (a * Z.of_nat m <? Z.of_nat k * Z.pos d)%Z.
Proof.
  intros Hm. unfold above, Qle_bool, Qdiv, Qmult, Qinv, inject_Z.
  destruct (Z.of_nat m) as [|p|p] eqn:E; [lia | | lia]. simpl.
  rewrite Z.ltb_antisym. f_equal. f_equal; lia.
Qed.

Lemma getDifficulty_counts b :
  0 < length b ->
  getDifficulty b =
  let m := Z.of_nat (length b * length b) in
  let k := Z.of_nat (filledCells b) in
  if (3 * m <? 5 * k)%Z then "Easy"%string
  else if (2 * m <? 5 * k)%Z then "Medium"%string
  else if (m <? 4 * k)%Z then "Hard"%string
  else "Expert"%string.
Proof.
  intros Hpos. unfold getDifficulty.
  rewrite !above_ratio by nia. simpl.
  set (m := Z.of_nat (length b * length b)). set (k := Z.of_nat (filledCells b)).
  repeat match goal with
         | |- context [(?x <? ?y)%Z] => destruct (Z.ltb_spec x y)
         end; try reflexivity; lia.
Qed.
End Difficulty.

(** X12: of two boards with the same number of rows, the one with no more
    filled cells is rated no easier by getDifficulty (in the order Easy,
    Medium, Hard, Expert); so emptying cells never makes the rating
    easier. *)
Theorem getDifficulty_monotone (b1 b2 : board) :
  length b1 = length b2 -> filledCells b1 <= filledCells b2 ->
  level (getDifficulty b2) <= level (getDifficulty b1).
Proof.
  intros Hlen Hfilled. destruct (decide (length b1 = 0)) as [Hz|Hpos].
  - assert (b1 = []) as -> by (by apply length_zero_iff_nil).
    assert (b2 = []) as -> by (apply length_zero_iff_nil; lia). done.
  - rewrite !getDifficulty_counts by lia. simpl. rewrite <- Hlen.
    set (m := Z.of_nat (length b1 * length b1)).
    repeat match goal with
           | |- context [(?x <? ?y)%Z] => destruct (Z.ltb_spec x y)
           end; try lia; vm_compute; lia.
Qed.

Lemma getDifficulty_monotone_witness :
  level (getDifficulty solved4) <= level (getDifficulty seeded4).
Proof.
  apply (getDifficulty_monotone seeded4 solved4); [reflexivity | vm_compute; lia].
Defined.

(** X13: for N = bs * bs with bs >= 3 (9 x 9 and larger) and draws of
    [[0, 1)], getDifficulty rates a board that generatePuzzle returns
    Medium or Hard, never Easy or Expert. *)
Theorem getDifficulty_of_generated (bs : nat) (rs : list Q) (b : board) (rs' : list Q) :
  3 <= bs -> Forall unitDraw rs ->
  generatePuzzle (bs * bs) rs = Some (b, rs') ->
  getDifficulty b = "Medium"%string \/ getDifficulty b = "Hard"%string.
Proof.
  intros Hbs Hrs H.
  destruct (generatePuzzle_count bs rs b rs' ltac:(lia) Hrs H ltac:(by left))
    as (u & Hu & Hcount).
  apply generatePuzzle_conflictFree in H as (Hn & _); [|lia].
  pose proof (cellsToKeep_bounds (bs * bs) u Hu) as [Hhalf Hlow].
  rewrite getDifficulty_counts by nia. simpl. rewrite Hn, Hcount.
  set (m := Z.of_nat (bs * bs * (bs * bs))) in *.
  set (k := Z.of_nat (cellsToKeep (bs * bs) u)) in *.
  assert (81 <= m)%Z by (unfold m; nia).
  repeat match goal with
         | |- context [(?x <? ?y)%Z] => destruct (Z.ltb_spec x y)
         end; auto; lia.
Qed.

Lemma getDifficulty_of_generated_witness :
  getDifficulty puzzle9 = "Medium"%string \/ getDifficulty puzzle9 = "Hard"%string.
Proof.
  apply (getDifficulty_of_generated 3 draws9 puzzle9 []);
    [lia | apply unitDrawb_Forall; vm_compute; reflexivity
    | vm_compute; reflexivity].
Defined.

(** X14: getDifficulty rates a board of zeros of any size Expert, the
    board without rows included, and an N x N board without an empty cell
    Easy. *)
Theorem getDifficulty_extremes :
  (forall n, getDifficulty (replicate n (replicate n 0%Z)) = "Expert"%string) /\
  (forall b : board,
     square b -> 0 < length b -> firstEmpty b = None ->
     getDifficulty b = "Easy"%string).
Proof.
  split.
  - intros n. destruct (decide (n = 0)) as [->|Hn]; [done|].
    rewrite getDifficulty_counts by (rewrite length_replicate; lia).
    cbv zeta. rewrite filledCells_replicate_zero, length_replicate.
    repeat match goal with
           | |- context [(?x <? ?y)%Z] => destruct (Z.ltb_spec x y)
           end; auto; lia.
  - intros b Hsq Hpos Hfull. rewrite getDifficulty_counts by done. simpl.
    rewrite (filledCells_full b Hsq Hfull).
    repeat match goal with
           | |- context [(?x <? ?y)%Z] => destruct (Z.ltb_spec x y)
           end; auto; nia.
Qed.

Lemma getDifficulty_extremes_witness :
  getDifficulty (replicate 9 (replicate 9 0%Z)) = "Expert"%string /\
  getDifficulty solved4 = "Easy"%string.
Proof.
  destruct getDifficulty_extremes as [Hzero Hfull]. split.
  - apply Hzero.
  - apply Hfull; [repeat constructor | simpl; lia | reflexivity].
Defined.

(** ** The page *)

Section PageLemmas.
Implicit Types (g b : board) (p : Page.t).

Lemma withCell_setCell g row col value :
  Page.withCell g row col value = setCell g row col value.
Proof.
  unfold Page.withCell, setCell. apply list_eq. intros i.
  rewrite list_lookup_imap, list_lookup_alter.
  destruct (decide (row = i)) as [->|Hne].
  - destruct (g !! i) as [r|]; simpl; [|done]. f_equal.
    apply list_eq. intros j. rewrite list_lookup_imap, list_lookup_insert.
    destruct (r !! j) as [c|] eqn:Hj; simpl.
    + apply lookup_lt_Some in Hj.
      destruct (decide (col = j)) as [->|Hc].
      * by rewrite !decide_True.
      * rewrite !decide_False; [done | lia | lia].
    + apply lookup_ge_None in Hj. case_decide; [lia | done].
  - destruct (g !! i) as [r|]; simpl; [|done]. f_equal.
    apply list_eq. intros j. rewrite list_lookup_imap.
    destruct (r !! j); simpl; [|done]. case_decide; [lia | done].
Qed.

Lemma emptyGrid_cell n r c v : cell (Page.emptyGrid n) r c = Some v -> v = 0%Z.
Proof.
  unfold cell, Page.emptyGrid. intros Hv.
  destruct (replicate _ _ !! r) as [l|] eqn:Hl; [|done].
  apply lookup_replicate in Hl as [-> _].
  by apply lookup_replicate in Hv as [-> _].
Qed.

Lemma emptyGrid_shape n :
  length (Page.emptyGrid n) = n /\ square (Page.emptyGrid n) /\
  inRange (Page.emptyGrid n) /\
  (forall c, keepsFilled (Page.emptyGrid n) c).
Proof.
  split_and!.
  - apply length_replicate.
  - unfold square, Page.emptyGrid. rewrite length_replicate.
    apply Forall_replicate. apply length_replicate.
  - intros r c v Hv. apply emptyGrid_cell in Hv as ->. lia.
  - intros c r c0 v Hv Hz. by apply emptyGrid_cell in Hv.
Qed.

Lemma sizes_square n :
  n = 4 \/ n = 9 \/ n = 16 ->
  n = Nat.sqrt n * Nat.sqrt n /\ 2 <= Nat.sqrt n.
Proof. intros [-> | [-> | ->]]; vm_compute; lia. Qed.

Lemma generatePuzzle_inRange bs rs b rs' :
  0 < bs -> generatePuzzle (bs * bs) rs = Some (b, rs') -> inRange b.
Proof.
  intros Hbs H.
  apply generatePuzzle_inv in H as (g0 & rs0 & res & u & rs1 & Hseed & Hsol & _ & H).
  apply seedPuzzle_inRange in Hseed; [|done].
  apply solveSudoku_solve in Hsol.
  eapply removeCells_inRange; [|exact H]. by eapply solve_inRange.
Qed.

Lemma keepsFilled_trans b1 b2 b3 :
  keepsFilled b1 b2 -> keepsFilled b2 b3 -> keepsFilled b1 b3.
Proof. intros H12 H23 r c v Hv Hz. apply H23; [|done]. by apply H12. Qed.

(** What the animated solver returns, in terms of the search. *)
Lemma solveSudokuAnimated_search b delay res events :
  solveSudokuAnimated b delay = Some (res, events) ->
  solve (S (empties b)) (b, 0) = Some (solved res, (grid res, steps res)) /\
  match last (shown events) with
  | Some snap => snap = grid res
  | None => grid res = b
  end.
Proof.
  intros H. apply solveSudokuAnimated_solveAnimated in H. split.
  - pose proof (solveAnimated_erase delay (S (empties b)) b 0 []) as He.
    by rewrite H in He.
  - apply solveAnimated_shows in H as (us & -> & _ & Hlast & _). simpl.
    rewrite shown_updates, fmap_last. by destruct (last us).
Qed.

Lemma solveSudokuAnimated_total b delay : is_Some (solveSudokuAnimated b delay).
Proof.
  destruct (solveSudoku_total b) as [res Hres].
  apply solveSudoku_solve in Hres.
  pose proof (solveAnimated_erase delay (S (empties b)) b 0 []) as He.
  rewrite Hres in He. unfold solveSudokuAnimated.
  destruct (solveAnimated _ _ _) as [[ok [[b' n] tr]]|]; [eauto | done].
Qed.
End PageLemmas.

Section Solving.
Variables (startTime endTime : Z).
Implicit Types (p : Page.t).

(** The ways handleSolve can end, on a page that is not animating. *)
Lemma handleSolve_cases p :
  Page.isAnimating p = false ->
  (Page.aliased p = true -> Page.originalGrid p = Page.grid p) ->
  let p' := Page.handleSolve startTime endTime p in
  Page.gridSize p' = Page.gridSize p /\
  Page.originalGrid p' = Page.originalGrid p /\
  Page.isAnimating p' = false /\
  (Page.aliased p' = true -> Page.aliased p = true /\ Page.grid p' = Page.grid p) /\
  ((valid (isValidSudoku (Page.grid p)) = false /\
    Page.solveStatus p' = "Invalid puzzle - please check for conflicts"%string /\
    Page.grid p' = Page.grid p /\ Page.solveTime p' = Page.solveTime p) \/
   (valid (isValidSudoku (Page.grid p)) = true /\
    exists res,
      solveSudoku (Page.grid p) = Some res /\
      Page.grid p' = grid res /\ Page.solveTime p' = (endTime - startTime)%Z /\
      Page.solveStatus p' =
        (if solved res then "Solved!" else "No solution exists")%string)).
Proof.
  intros Hanim Halias. unfold Page.handleSolve. rewrite Hanim.
  assert (after (isValidSudoku (Page.grid p)) = Page.grid p) as Hafter
    by (unfold isValidSudoku; by rewrite validScan_spec).
  rewrite Hafter.
  assert ((if Page.aliased p then Page.grid p else Page.originalGrid p)
          = Page.originalGrid p) as Hog.
  { destruct (Page.aliased p); [by rewrite Halias | done]. }
  rewrite Hog.
  destruct (valid (isValidSudoku (Page.grid p))) eqn:Hvalid; simpl.
  2:{ split_and!; try done. left. done. }
  destruct (solveSudokuAnimated_total (Page.grid p) 50) as [[res events] Hrun].
  rewrite Hrun.
  destruct (solveSudokuAnimated_search _ _ _ _ Hrun) as [Hsearch Hlast].
  assert (solveSudoku (Page.grid p) = Some res) as Hres.
  { unfold solveSudoku. rewrite Hsearch. by destruct res. }
  pose proof (solve_frame _ _ _ _ _ _ Hsearch) as (_ & _ & Hsame).
  clear Hsearch. destruct res as [[] final n]; simpl in Hlast, Hsame |- *.
  - split_and!; try done. right. split; [done|]. eexists. split; [exact Hres|]. done.
  - specialize (Hsame eq_refl).
    destruct (last (shown events)) as [snap|]; simpl.
    + split_and!; try done. right. split; [done|].
      eexists. split; [exact Hres|]. simpl. by rewrite Hlast.
    + split_and!; try done. right. split; [done|].
      eexists. split; [exact Hres|]. simpl. by rewrite Hsame.
Qed.
End Solving.

Section PageInvariant.
Variable parseInt : string -> option Z.
Implicit Types (p : Page.t).

Lemma handleInputChange_call size row col value r c v :
  SudokuGrid.handleInputChange parseInt size row col value = Some (r, c, v) ->
  r = row /\ c = col /\ (0 <= v <= Z.of_nat size)%Z /\
  (v = 0%Z <-> value = ""%string).
Proof.
  unfold SudokuGrid.handleInputChange.
  destruct (String.eqb_spec value "") as [->|Hne].
  - intros [= <- <- <-]. split_and!; try done; lia.
  - destruct (parseInt value) as [numValue|]; [|done].
    destruct ((1 <=? numValue)%Z && (numValue <=? Z.of_nat size)%Z) eqn:Hin; [|done].
    intros [= <- <- <-]. apply andb_prop in Hin as [H1 H2].
    split_and!; try done; try lia. split; [lia | done].
Qed.

Lemma invariant_initial : Page.invariant Page.initial.
Proof.
  destruct (emptyGrid_shape 9) as (Hl & Hsq & Hr & Hk).
  unfold Page.invariant; simpl. split_and!; auto.
Qed.

Lemma invariant_step p p' :
  Page.invariant p -> Page.step parseInt p p' -> Page.invariant p'.
Proof.
  intros (Hsize & Hlen & Hsq & Holen & Hosq & Hrange & Hkeep & Halias & Hanim) Hstep.
  destruct Hstep as [newSize p Hnew | row col value p Hcell | p | p rs p' rs' Hgen
                    | startTime endTime p | p].
  - destruct (emptyGrid_shape newSize) as (Hl & Hs & Hr & Hk).
    unfold Page.invariant; simpl. split_and!; auto.
  - unfold Page.typeInCell, SudokuGrid.disabled. rewrite Hanim, orb_false_r.
    destruct (cellIs (Page.originalGrid p) row col 0) eqn:Horig; simpl;
      [|by unfold Page.invariant; split_and!].
    destruct (SudokuGrid.handleInputChange _ _ _ _ _) as [[[r c] v]|] eqn:Hcall;
      [|by unfold Page.invariant; split_and!].
    apply handleInputChange_call in Hcall as (-> & -> & Hv & _).
    unfold Page.handleCellChange. rewrite Hanim.
    unfold Page.invariant; simpl. rewrite withCell_setCell, length_setCell.
    split_and!; auto.
    + by apply square_setCell.
    + apply inRange_setCell; [done | by rewrite Hlen].
    + intros r c w Hw Hwz. rewrite cell_setCell_ne; [by apply Hkeep|].
      intros [= <- <-]. apply cellIs_true in Horig. congruence.
    + done.
  - unfold Page.handleClearGrid. rewrite Hanim.
    destruct (emptyGrid_shape (Page.gridSize p)) as (Hl & Hs & Hr & Hk).
    unfold Page.invariant; simpl. split_and!; auto.
  - unfold Page.handleGeneratePuzzle in Hgen. rewrite Hanim in Hgen.
    apply rand_bind_Some in Hgen as (puzzle & rs1 & Hgen & Hret).
    injection Hret as <- <-.
    destruct (sizes_square _ Hsize) as [Hbs Hbs2]. rewrite Hbs in Hgen.
    set (bs := Nat.sqrt (Page.gridSize p)) in *.
    pose proof (generatePuzzle_inRange bs _ _ _ ltac:(lia) Hgen) as Hr.
    apply (generatePuzzle_conflictFree bs) in Hgen as (Hl & Hs & _); [|lia].
    rewrite <- Hbs in Hl.
    unfold Page.invariant; simpl. split_and!; auto. by intros r c v Hv _.
  - destruct (handleSolve_cases startTime endTime p Hanim Halias)
      as (Hsz & Hog & Han & Hal & Hcases).
    destruct (sizes_square _ Hsize) as [Hbs Hbs2].
    unfold Page.invariant. rewrite Hsz, Hog.
    destruct Hcases as [(_ & _ & Hg & _) | (Hvalid & res & Hres & Hg & _)].
    + rewrite Hg. split_and!; auto.
      intros Ha. destruct (Hal Ha) as [Ha' _]. auto.
    + apply solveSudoku_solve in Hres.
      rewrite <- Hlen in Hbs.
      apply (isValidSudoku_conflictFree _ _ Hsq Hbs) in Hvalid.
      pose proof (solve_conflictFree _ _ _ _ _ _ _ Hbs Hsq Hvalid Hres) as (Hl1 & Hs1 & _).
      pose proof (solve_inRange _ _ _ _ _ _ Hrange Hres) as Hr1.
      pose proof (solve_frame _ _ _ _ _ _ Hres) as (_ & Hk1 & _).
      rewrite Hg. split_and!; auto.
      * congruence.
      * by eapply keepsFilled_trans.
      * intros Ha. destruct (Hal Ha) as [Ha' Hsame].
        rewrite <- Hg, Hsame. auto.
  - unfold Page.invariant; simpl. split_and!; auto.
Qed.
End PageInvariant.

(** X15: handleCellChange does nothing while the solver is animating;
    otherwise it sets the grid to one that has the given value at the
    given cell, when the grid has that cell, and the old values elsewhere,
    and leaves the size and originalGrid as they were. *)
Theorem handleCellChange_sets_one_cell (row col : nat) (value : Z) (p : Page.t) :
  (Page.isAnimating p = true -> Page.handleCellChange row col value p = p) /\
  (Page.isAnimating p = false ->
   let p' := Page.handleCellChange row col value p in
   length (Page.grid p') = length (Page.grid p) /\
   (forall r c,
      cell (Page.grid p') r c =
      if decide (row = r /\ col = c /\ is_Some (cell (Page.grid p) row col))
      then Some value else cell (Page.grid p) r c) /\
   Page.originalGrid p' = Page.originalGrid p /\
   Page.gridSize p' = Page.gridSize p).
Proof.
  unfold Page.handleCellChange. split; intros ->; [done|]. simpl.
  rewrite withCell_setCell, length_setCell. split_and!; try done.
  intros r c. apply cell_setCell.
Qed.

(** X16: whatever parseInt answers, handleInputChange calls onChange at
    most once, for the cell of the input, with 0 when the text is empty
    and a value of 1..size otherwise. *)
Theorem handleInputChange_passes_cell_values (parseInt : string -> option Z)
    (size row col : nat) (value : string) (r c : nat) (v : Z) :
  SudokuGrid.handleInputChange parseInt size row col value = Some (r, c, v) ->
  r = row /\ c = col /\ (0 <= v <= Z.of_nat size)%Z /\
  (v = 0%Z <-> value = ""%string).
Proof. apply handleInputChange_call. Qed.

Lemma handleInputChange_passes_cell_values_witness :
  3 = 3 /\ 1 = 1 /\ (0 <= 7 <= Z.of_nat 9)%Z /\ (7%Z = 0%Z <-> "7"%string = ""%string).
Proof.
  apply (handleInputChange_passes_cell_values (fun _ => Some 7%Z) 9 3 1 "7" 3 1 7).
  reflexivity.
Defined.

(** X17: after any sequence of size changes, typing into cells, clearing,
    generating, solving and status timers, each run to its end from the
    first render, the size is 4, 9 or 16, grid and originalGrid are N x N,
    the cells of grid hold 0..N, the page is not animating, and every cell
    that originalGrid has filled holds the same value in grid. *)
Theorem page_invariant (parseInt : string -> option Z) (p : Page.t) :
  rtc (Page.step parseInt) Page.initial p -> Page.invariant p.
Proof.
  intros Hreach. pose proof invariant_initial as Hinit.
  induction Hreach as [q | q q' p Hstep _ IH]; [done|].
  apply IH. by eapply invariant_step.
Qed.

Lemma page_invariant_witness :
  Page.invariant
    (Page.typeInCell (fun _ => Some 3%Z) 0 0 "3"
       (Page.handleGridSizeChange 4 Page.initial)).
Proof.
  apply (page_invariant (fun _ => Some 3%Z)).
  eapply rtc_l; [apply (Page.step_size _ 4); auto|].
  apply rtc_once. apply Page.step_type. simpl. eauto.
Defined.

Section Verdicts.
Implicit Types (p : Page.t) (b : board).

Lemma solve_sound bs b res :
  length b = bs * bs -> square b -> inRange b -> conflictFree b ->
  solveSudoku b = Some res -> solved res = true ->
  solution bs (grid res) /\ keepsFilled b (grid res).
Proof.
  intros Hn Hsq Hrange Hcf Hres Hok.
  apply solveSudoku_solve in Hres. rewrite Hok in Hres.
  pose proof (solve_conflictFree bs _ _ _ _ _ _ Hn Hsq Hcf Hres) as (Hn1 & Hsq1 & Hcf1).
  pose proof (solve_inRange _ _ _ _ _ _ Hrange Hres) as Hrange1.
  pose proof (solve_full _ _ _ _ _ Hres) as Hfull.
  pose proof (solve_frame _ _ _ _ _ _ Hres) as (_ & Hkeep & _).
  by split_and!.
Qed.

Lemma solve_unsolved bs b res c :
  length b = bs * bs -> solveSudoku b = Some res -> solved res = false ->
  solution bs c -> ~ keepsFilled b c.
Proof.
  intros Hn Hres Hok Hc Hkeep.
  destruct (solve_complete bs c Hc (S (empties b)) b 0 Hn Hkeep ltac:(lia))
    as (b' & s' & Hs).
  apply solveSudoku_solve in Hres. rewrite Hs in Hres. injection Hres as Hres _ _.
  congruence.
Qed.
End Verdicts.

(** X18: on a page as the handlers leave it, handleSolve ends in one of
    three ways.  It reports the conflict message, exactly when the
    validator rejects the grid, and leaves the grid alone.  Or it reports
    "Solved!" and shows a completed sudoku that keeps the filled cells of
    the grid.  Or it reports "No solution exists", shows the grid as it
    was, and then no completed sudoku keeps the filled cells of the grid.
    It never reports an error, and originalGrid and the size stay as they
    were. *)
Theorem handleSolve_verdict (startTime endTime : Z) (p : Page.t) :
  Page.invariant p ->
  let bs := Nat.sqrt (Page.gridSize p) in
  let p' := Page.handleSolve startTime endTime p in
  Page.originalGrid p' = Page.originalGrid p /\
  Page.gridSize p' = Page.gridSize p /\
  ((Page.solveStatus p' = "Invalid puzzle - please check for conflicts"%string /\
    valid (isValidSudoku (Page.grid p)) = false /\
    Page.grid p' = Page.grid p) \/
   (Page.solveStatus p' = "Solved!"%string /\
    valid (isValidSudoku (Page.grid p)) = true /\
    solution bs (Page.grid p') /\ keepsFilled (Page.grid p) (Page.grid p')) \/
   (Page.solveStatus p' = "No solution exists"%string /\
    valid (isValidSudoku (Page.grid p)) = true /\
    Page.grid p' = Page.grid p /\
    forall c, solution bs c -> ~ keepsFilled (Page.grid p) c)).
Proof.
  intros (Hsize & Hlen & Hsq & Holen & Hosq & Hrange & Hkeep & Halias & Hanim).
  intros bs p'.
  destruct (handleSolve_cases startTime endTime p Hanim Halias)
    as (Hsz & Hog & _ & _ & Hcases). fold p' in Hsz, Hog, Hcases.
  destruct (sizes_square _ Hsize) as [Hbs _]. fold bs in Hbs.
  rewrite <- Hlen in Hbs at 1.
  split; [done|]. split; [done|].
  destruct Hcases as [(Hv & Hst & Hg & _) | (Hv & res & Hres & Hg & _ & Hst)].
  - left. done.
  - right. pose proof Hv as Hcf.
    apply (isValidSudoku_conflictFree _ bs Hsq Hbs) in Hcf.
    destruct (solved res) eqn:Hok.
    + left. destruct (solve_sound bs _ _ Hbs Hsq Hrange Hcf Hres Hok) as [Hsol Hk].
      rewrite Hg. done.
    + right. split; [done|]. split; [done|].
      pose proof (solveSudoku_solve _ _ Hres) as Hs. rewrite Hok in Hs.
      apply solve_frame in Hs as (_ & _ & Hsame).
      split; [by rewrite Hg, Hsame|].
      intros c Hc. by eapply solve_unsolved.
Qed.

Lemma handleSolve_verdict_witness :
  let p := Page.typeInCell (fun _ => Some 3%Z) 0 0 "3"
             (Page.handleGridSizeChange 4 Page.initial) in
  let bs := Nat.sqrt (Page.gridSize p) in
  let p' := Page.handleSolve 0 5 p in
  Page.originalGrid p' = Page.originalGrid p /\
  Page.gridSize p' = Page.gridSize p /\
  ((Page.solveStatus p' = "Invalid puzzle - please check for conflicts"%string /\
    valid (isValidSudoku (Page.grid p)) = false /\
    Page.grid p' = Page.grid p) \/
   (Page.solveStatus p' = "Solved!"%string /\
    valid (isValidSudoku (Page.grid p)) = true /\
    solution bs (Page.grid p') /\ keepsFilled (Page.grid p) (Page.grid p')) \/
   (Page.solveStatus p' = "No solution exists"%string /\
    valid (isValidSudoku (Page.grid p)) = true /\
    Page.grid p' = Page.grid p /\
    forall c, solution bs c -> ~ keepsFilled (Page.grid p) c)).
Proof.
  apply (handleSolve_verdict 0 5).
  apply (invariant_step (fun _ => Some 3%Z) (Page.handleGridSizeChange 4 Page.initial)).
  - apply (invariant_step (fun _ => Some 3%Z) Page.initial);
      [apply invariant_initial | apply (Page.step_size _ 4); auto].
  - apply Page.step_type. simpl. eauto.
Defined.

(** X19: on a page as the handlers leave it, a puzzle that
    handleGeneratePuzzle has put on the page (draws of [[0, 1)]) is shown
    with all its filled cells as given cells, and handleSolve run on it
    reports "Solved!" and shows a completed sudoku that keeps them. *)
Theorem generated_puzzle_gets_solved (startTime endTime : Z)
    (p p1 : Page.t) (rs rs' : list Q) :
  Page.invariant p -> Forall unitDraw rs ->
  Page.handleGeneratePuzzle p rs = Some (p1, rs') ->
  let bs := Nat.sqrt (Page.gridSize p) in
  let p2 := Page.handleSolve startTime endTime p1 in
  Page.originalGrid p1 = Page.grid p1 /\
  Page.solveStatus p2 = "Solved!"%string /\
  solution bs (Page.grid p2) /\ keepsFilled (Page.grid p1) (Page.grid p2).
Proof.
  intros Hinv Hrs Hgen bs p2.
  pose proof Hinv as (Hsize & _ & _ & _ & _ & _ & _ & _ & Hanim).
  destruct (sizes_square _ Hsize) as [Hbs Hbs2]. fold bs in Hbs, Hbs2.
  assert (Page.invariant p1) as Hinv1.
  { eapply (invariant_step (fun _ => None)); [exact Hinv|].
    by eapply Page.step_generate. }
  unfold Page.handleGeneratePuzzle in Hgen. rewrite Hanim in Hgen.
  apply rand_bind_Some in Hgen as (puzzle & rs1 & Hgen & Hret).
  injection Hret as <- <-. simpl in p2. split; [done|].
  rewrite Hbs in Hgen.
  destruct (generatePuzzle_from_solution bs _ _ _ Hbs2 Hrs Hgen) as (c & Hc & Hk & _).
  pose proof Hinv1 as (_ & Hlen1 & Hsq1 & _ & _ & Hrange1 & _ & Halias1 & Hanim1).
  simpl in Hlen1, Hsq1, Hrange1.
  destruct (handleSolve_cases startTime endTime _ Hanim1 Halias1)
    as (_ & _ & _ & _ & Hcases). fold p2 in Hcases. simpl in Hcases.
  rewrite Hbs in Hlen1.
  pose proof (generatePuzzle_conflictFree bs _ _ _ ltac:(lia) Hgen) as (_ & _ & Hcf).
  destruct Hcases as [(Hv & _) | (Hv & res & Hres & Hg & _ & Hst)].
  - apply (isValidSudoku_conflictFree _ bs Hsq1 Hlen1) in Hcf. congruence.
  - destruct (solved res) eqn:Hok.
    + destruct (solve_sound bs _ _ Hlen1 Hsq1 Hrange1 Hcf Hres Hok) as [Hsol Hkk].
      rewrite Hg. done.
    + exfalso. by apply (solve_unsolved bs puzzle res c).
Qed.

Lemma generated_puzzle_gets_solved_witness :
  let p := Page.initial in
  let p1 := Page.mk 9 puzzle9 puzzle9 false false "Puzzle generated!" 0 in
  let bs := Nat.sqrt (Page.gridSize p) in
  let p2 := Page.handleSolve 0 5 p1 in
  Page.originalGrid p1 = Page.grid p1 /\
  Page.solveStatus p2 = "Solved!"%string /\
  solution bs (Page.grid p2) /\ keepsFilled (Page.grid p1) (Page.grid p2).
Proof.
  apply (generated_puzzle_gets_solved 0 5 Page.initial _ draws9 []);
    [apply invariant_initial | apply unitDrawb_Forall; vm_compute; reflexivity
    | vm_compute; reflexivity].
Defined.

(** X20: on a board of side N = bs * bs, the answer of isSafe for a cell
    does not change when a cell outside its row, its column and its box
    is written to. *)
Theorem isSafe_local (b : board) (bs row col r c : nat) (num v : Z) :
  length b = bs * bs -> row < length b -> col < length b ->
  ~ related bs (row, col) (r, c) ->
  isSafe (setCell b r c v) row col num = isSafe b row col num.
Proof.
  intros Hn Hrow Hcol Hfar. apply Bool.eq_iff_eq_true.
  rewrite (isSafe_related (setCell b r c v) bs), (isSafe_related b bs);
    rewrite ?length_setCell; try done.
  split; intros H r' c' Hr' Hc' Hrel.
  - rewrite <- (cell_setCell_ne b r c v r' c'); [by apply H|].
    intros [= -> ->]. done.
  - rewrite cell_setCell_ne; [by apply H|]. intros [= -> ->]. done.
Qed.

Lemma isSafe_local_witness :
  isSafe (setCell scenario4 0 0 4) 3 3 1 = isSafe scenario4 3 3 1.
Proof.
  apply (isSafe_local scenario4 2 3 3 0 0 1 4);
    [reflexivity | simpl; lia | simpl; lia |].
  intros [H | [H | [H _]]]; simpl in H; discriminate.
Defined.

(** X21: of the 576 ways the two shuffles of generatePuzzle(4) can come
    out, 288 seed a grid that solveSudoku completes and 288 a grid that
    it cannot complete. *)
Theorem generatePuzzle_4_seedings :
  length allDraws4 = 576 /\
  Forall (Forall unitDraw) allDraws4 /\
  length (List.filter (seedSolved 4) allDraws4) = 288 /\
  length (List.filter (fun rs => negb (seedSolved 4 rs)) allDraws4) = 288.
Proof.
  split; [vm_compute; reflexivity|]. split.
  - apply Forall_forall. intros rs Hrs. apply unitDrawb_Forall.
    assert (forallb (forallb unitDrawb) allDraws4 = true) as H
      by (vm_compute; reflexivity).
    rewrite forallb_forall in H. by apply H, list_elem_of_In.
  - split; vm_compute; reflexivity.
Qed.

(** X22: for N = bs * bs with bs >= 2 and draws of [[0, 1)], when
    solveSudoku fails on the seeded grid, generatePuzzle returns no
    puzzle: the removal loop wants to empty at least as many cells as the
    seeded grid has filled, and the call comes back only on the 4 x 4
    grid, with a board of zeros. *)
Theorem generatePuzzle_needs_solved_seed (bs : nat) (rs rs0 : list Q)
    (g : board) (res : SolveResult) (b : board) (rs' : list Q) :
  2 <= bs -> Forall unitDraw rs ->
  seedPuzzle (bs * bs) rs = Some (g, rs0) ->
  solveSudoku g = Some res -> solved res = false ->
  generatePuzzle (bs * bs) rs = Some (b, rs') ->
  bs = 2 /\ filledCells b = 0.
Proof. apply generatePuzzle_unsolved. Qed.

Lemma generatePuzzle_needs_solved_seed_witness :
  2 = 2 /\ filledCells (replicate 4 (replicate 4 0%Z)) = 0.
Proof.
  apply (generatePuzzle_needs_solved_seed 2 drawsEmpty4 (drop 6 drawsEmpty4) seeded4
           (mkResult false seeded4 3) _ []);
    [lia | apply unitDrawb_Forall; vm_compute; reflexivity | reflexivity
    | reflexivity | reflexivity | vm_compute; reflexivity].
Defined.

Lemma box_edge (bs i : nat) :
  0 < bs -> i < bs * bs ->
  ((i + 1) mod bs =? 0) && negb (i =? bs * bs - 1) = true <->
  i + 1 < bs * bs /\ i / bs <> (i + 1) / bs.
Proof.
  intros Hbs Hi.
  rewrite andb_true_iff, negb_true_iff, Nat.eqb_eq, Nat.eqb_neq.
  pose proof (Nat.div_mod_eq i bs). pose proof (Nat.div_mod_eq (i + 1) bs).
  pose proof (Nat.mod_upper_bound i bs ltac:(lia)).
  pose proof (Nat.mod_upper_bound (i + 1) bs ltac:(lia)).
  split.
  - intros [Hmod Hlast]. split; [lia|]. intros E. rewrite <- E in *. lia.
  - intros [Hlt Hne]. split; [|lia].
    destruct (decide ((i + 1) mod bs = 0)) as [|Hnz]; [done|]. exfalso.
    apply Hne. nia.
Qed.

(** X23: for a grid of side N = bs * bs, the cell classes ask for a thick
    right border exactly at the columns whose right neighbour lies in
    another box, and for a thick bottom border exactly at the rows whose
    lower neighbour lies in another box, the boxes being those of isSafe. *)
Theorem thick_borders_between_boxes (bs i : nat) :
  0 < bs -> i < bs * bs ->
  (SudokuGrid.isRightBorder (bs * bs) i = true <->
   i + 1 < bs * bs /\ i / bs <> (i + 1) / bs) /\
  (SudokuGrid.isBottomBorder (bs * bs) i = true <->
   i + 1 < bs * bs /\ i / bs <> (i + 1) / bs).
Proof.
  intros Hbs Hi. unfold SudokuGrid.isRightBorder, SudokuGrid.isBottomBorder.
  rewrite Nat.sqrt_square. split; by apply box_edge.
Qed.

Lemma thick_borders_between_boxes_witness :
  (SudokuGrid.isRightBorder (3 * 3) 2 = true <->
   2 + 1 < 3 * 3 /\ 2 / 3 <> (2 + 1) / 3) /\
  (SudokuGrid.isBottomBorder (3 * 3) 2 = true <->
   2 + 1 < 3 * 3 /\ 2 / 3 <> (2 + 1) / 3).
Proof. apply (thick_borders_between_boxes 3 2); lia. Defined.
